(** * web-scrobbler: the scrobble service and the batch chunker

    A shallow embedding of
      - [src/core/background/object/scrobble-service.js]   (module [ScrobbleService]),
      - [src/core/background/scrobbler/base-scrobbler.js]  (module [BaseScrobbler]),
      - [src/core/background/object/scrobble-batch-result.js]
        (modules [ScrobbleBatchError] and [ServiceCallResult]),
    followed by the properties of the dispatch engine, the binding registry
    and the batch chunker.

    Scrobbler instances are JavaScript objects: arrays hold references to
    them, [Array.prototype.indexOf] compares references, and the service
    compares labels.  A scrobbler is therefore a reference ([ref]) into a
    heap [ref -> Scrobbler]; two references may carry equal labels.

    Promises are modelled by the outcome they settle with.  The order in
    which the promises of one [Promise.all] settle is not fixed by the
    program; it is a parameter ([schedule], the list of array positions in
    completion order), and handlers run, with their side effects, in that
    order. *)

From Stdlib Require Import ZArith String List Bool Lia Permutation DecimalString.
From stdpp Require Import base list strings gmap.
Import ListNotations.

Open Scope Z_scope.

(** ** JavaScript values, promises and arrays *)

Module JS.

(** Object identity. *)
Definition ref := nat.

(** The values that travel through the service: primitives, [Error]
    objects ([name] is the constructor name, [Error] or [TypeError]) and
    opaque objects such as a song info. *)
Inductive Value :=
| VUndefined
| VNull
| VStr (s : string)
| VError (name : string) (message : string)
| VObj (id : nat).

(** [`${v}`] *)
Definition toString (v : Value) : string :=
  match v with
  | VUndefined => "undefined"
  | VNull => "null"
  | VStr s => s
  | VError name message => name +:+ ": " +:+ message
  | VObj _ => "[object Object]"
  end.

(** [v === s] for a string [s]. *)
Definition strictEqualsString (v : Value) (s : string) : bool :=
  match v with
  | VStr t => String.eqb t s
  | _ => false
  end.

(** [`${n}`] for an array length. *)
Definition numToString (n : nat) : string :=
  NilEmpty.string_of_uint (Nat.to_uint n).

Definition dquote : string := String (Ascii.ascii_of_nat 34) EmptyString.

(** What a promise settles with. *)
Inductive Outcome (A E : Type) :=
| Fulfilled (value : A)
| Rejected (reason : E).
Arguments Fulfilled {A E} value.
Arguments Rejected {A E} reason.

(** The console, as the list of messages written so far. *)
Inductive Level := Log | Warn | Error.
Definition Console := list (Level * string).

Section Settle.
Context {S T A E : Type}.

(** The promises built from [targets] settle in the order [schedule];
    when the promise at position [k] settles its handler runs on the
    current state.  A handler that answers [None] belongs to a promise
    that stays pending.  The result is the final state and the settle
    events in order. *)
Fixpoint settleInOrder (handler : S -> nat -> T -> S * option (Outcome A E))
    (targets : list T) (schedule : list nat) (s : S)
    : S * list (nat * Outcome A E) :=
  match schedule with
  | [] => (s, [])
  | k :: rest =>
      match targets !! k with
      | Some t =>
          let '(s1, o) := handler s k t in
          let '(s2, events) := settleInOrder handler targets rest s1 in
          (s2, match o with Some o => (k, o) :: events | None => events end)
      | None => settleInOrder handler targets rest s
      end
  end.

End Settle.

Section PromiseAll.
Context {A E : Type}.

(** The reason of the first promise that rejected. *)
Fixpoint firstRejection (events : list (nat * Outcome A E)) : option E :=
  match events with
  | [] => None
  | (_, Rejected e) :: _ => Some e
  | (_, Fulfilled _) :: rest => firstRejection rest
  end.

(** The value the promise at position [k] fulfilled with. *)
Fixpoint slot (events : list (nat * Outcome A E)) (k : nat) : option A :=
  match events with
  | [] => None
  | (j, Fulfilled v) :: rest => if Nat.eqb j k then Some v else slot rest k
  | (_, Rejected _) :: rest => slot rest k
  end.

(** [Promise.all] over [n] promises with the given settle events:
    rejected with the first rejection; fulfilled with the values in
    array order once every promise has fulfilled; pending ([None])
    otherwise. *)
Definition all (n : nat) (events : list (nat * Outcome A E))
    : option (Outcome (list A) E) :=
  match firstRejection events with
  | Some e => Some (Rejected e)
  | None => Fulfilled <$> mapM (slot events) (seq 0 n)
  end.

End PromiseAll.

(** [array.indexOf(x)]: the first position holding the reference [x],
    [-1] when there is none. *)
Fixpoint indexOfFrom (x : ref) (array : list ref) (i : Z) : Z :=
  match array with
  | [] => -1
  | y :: rest => if Nat.eqb y x then i else indexOfFrom x rest (i + 1)
  end.

Definition indexOf (x : ref) (array : list ref) : Z := indexOfFrom x array 0.

(** [array.splice(start, 1)]: a negative [start] counts from the end,
    and a [start] beyond the end removes nothing. *)
Definition splice1 (start : Z) (array : list ref) : list ref :=
  let len := Z.of_nat (length array) in
  let from := if start <? 0 then Z.max (len + start) 0 else Z.min start len in
  delete (Z.to_nat from) array.

End JS.
Import JS.

(** ** object/service-call-result: the result constants *)

Module ServiceCallResult.

Definition RESULT_OK : string := "ok".
Definition RESULT_IGNORE : string := "ignored".
Definition ERROR_AUTH : string := "error-auth".
Definition ERROR_OTHER : string := "error-other".

End ServiceCallResult.

(** ** object/scrobble-batch-result: [ScrobbleBatchError] *)

Module ScrobbleBatchError.

(** [errorData] holds the properties the object has of its own. *)
Record t := { message : string; errorData : gmap string (list Z) }.

Definition new (message : string) : t :=
  {| message := message; errorData := ∅ |}.

Definition setFailedSongIndices (scrobblerId : string) (songIndices : list Z)
    (e : t) : t :=
  {| message := message e;
     errorData := <[scrobblerId := songIndices]> (errorData e) |}.

End ScrobbleBatchError.

(** ** scrobbler/base-scrobbler: the scrobbler contract and the batch chunker *)

Module BaseScrobbler.

Definition Song := Value.

(** A rejected [scrobbleBatchWithLimit]: the chunk-relative indices of the
    songs that failed, or an [Error] object thrown on the way. *)
Inductive ChunkFailure :=
| FailedIndices (songIndices : list Z)
| Thrown (name message : string).

(** A scrobbler instance: the getters and capability flags of a
    descendant, and for each asynchronous method the outcome its promise
    settles with.  [scrobbleBatchWithLimit] also receives the position of
    the chunk, so that two calls with equal chunks may end differently. *)
Record Scrobbler := {
  getId : string;
  getLabel : string;
  getMaxTrackCountToScrobble : Z;
  canLoveSong : bool;
  canLoadSongInfo : bool;
  getSession : Outcome Value Value;
  isReadyForGrantAccess : Outcome bool Value;
  sendNowPlaying : Song -> Outcome Value Value;
  scrobble : Song -> Outcome Value Value;
  toggleLove : Song -> bool -> Outcome Value Value;
  getSongInfo : Song -> Outcome Value Value;
  scrobbleBatchWithLimit : nat -> list Song -> Outcome Value ChunkFailure
}.

Definition mustBeOverridden : Value :=
  VError "Error" "This function must be overridden!".

(** A descendant that overrides the getters only: every asynchronous
    method is the base one and throws, both capability flags are false. *)
Definition descendant (id label : string) (maxTrackCount : Z) : Scrobbler := {|
  getId := id;
  getLabel := label;
  getMaxTrackCountToScrobble := maxTrackCount;
  canLoveSong := false;
  canLoadSongInfo := false;
  getSession := Rejected mustBeOverridden;
  isReadyForGrantAccess := Rejected mustBeOverridden;
  sendNowPlaying := fun _ => Rejected mustBeOverridden;
  scrobble := fun _ => Rejected mustBeOverridden;
  toggleLove := fun _ _ => Rejected mustBeOverridden;
  getSongInfo := fun _ => Rejected mustBeOverridden;
  scrobbleBatchWithLimit :=
    fun _ _ => Rejected (Thrown "Error" "This function must be overridden!")
|}.

(** [BaseScrobbler.REQUEST_TIMEOUT] *)
Definition REQUEST_TIMEOUT : Z := 15000.

(** Modelled from the spec: [splitArrayToChunks] of [util/util], which is
    not among the sources.  The spec has it cut an ordered batch into
    contiguous chunks of [chunkSize] songs, in order, the last one
    possibly shorter; it speaks of positive chunk sizes only. *)
Fixpoint splitArrayToChunksFuel {A : Type} (fuel : nat) (array : list A)
    (chunkSize : nat) : list (list A) :=
  match fuel with
  | O => []
  | Datatypes.S fuel' =>
      match array with
      | [] => []
      | _ => take chunkSize array
               :: splitArrayToChunksFuel fuel' (drop chunkSize array) chunkSize
      end
  end.

Definition splitArrayToChunks {A : Type} (array : list A) (chunkSize : Z)
    : list (list A) :=
  splitArrayToChunksFuel (length array) array (Z.to_nat chunkSize).

(** The rejection handler of one chunk request:
    [results.push(songIndex + chunkIndex * maxChunkSize)] for each
    [songIndex of songIndices]; [for ... of] over an [Error] throws. *)
Definition onChunkSettled (maxChunkSize : Z) (chunkIndex : nat)
    (o : Outcome Value ChunkFailure) (results : list Z)
    : list Z * option (Outcome Value Value) :=
  match o with
  | Fulfilled v => (results, Some (Fulfilled v))
  | Rejected (FailedIndices songIndices) =>
      let songIndexOffset := Z.of_nat chunkIndex * maxChunkSize in
      (results ++ map (fun songIndex => songIndex + songIndexOffset) songIndices,
       Some (Fulfilled VUndefined))
  | Rejected (Thrown _ _) =>
      (results, Some (Rejected (VError "TypeError" "songIndices is not iterable")))
  end.

(** [this.scrobbleBatchWithLimit(chunk).catch(...)], settling on the
    array [results]. *)
Definition chunkRequest (this : Scrobbler) (results : list Z)
    (chunkIndex : nat) (chunk : list Song)
    : list Z * option (Outcome Value Value) :=
  onChunkSettled (getMaxTrackCountToScrobble this) chunkIndex
    (scrobbleBatchWithLimit this chunkIndex chunk) results.

(** [scrobbleBatch(songInfoArray)]; [schedule] is the order in which the
    chunk requests settle. *)
Definition scrobbleBatch (this : Scrobbler) (songInfoArray : list Song)
    (schedule : list nat) : option (Outcome (list Z) Value) :=
  let maxChunkSize := getMaxTrackCountToScrobble this in
  let chunks := splitArrayToChunks songInfoArray maxChunkSize in
  let '(results, events) :=
    settleInOrder (chunkRequest this) chunks schedule [] in
  match JS.all (length chunks) events with
  | Some (Fulfilled _) => Some (Fulfilled results)
  | Some (Rejected e) => Some (Rejected e)
  | None => None
  end.

End BaseScrobbler.

(** ** object/scrobble-service: the service *)

Module ScrobbleService.
Import BaseScrobbler.

(** The mutable part of the module: the array [boundScrobblers], and the
    console the service writes to. *)
Record State := {
  boundScrobblers : list ref;
  console : Console
}.

(** The state the module is loaded with: [const boundScrobblers = []]. *)
Definition initial : State := {| boundScrobblers := []; console := [] |}.

Definition write (level : Level) (text : string) (st : State) : State :=
  {| boundScrobblers := boundScrobblers st;
     console := console st ++ [(level, text)] |}.

Definition setBound (bound : list ref) (st : State) : State :=
  {| boundScrobblers := bound; console := console st |}.

(** What a call of the service leaves behind: the scrobblers whose method
    it invoked, in call order, the state once every handler has run, and
    what the returned promise settles with ([None]: it stays pending). *)
Record Call (A : Type) := {
  called : list ref;
  after : State;
  settled : option (Outcome A Value)
}.
Arguments called {A} _.
Arguments after {A} _.
Arguments settled {A} _.

Section Service.

(** The scrobbler objects, and the constant array [registeredScrobblers]. *)
Variable heap : ref -> Scrobbler.
Variable registeredScrobblers : list ref.

Definition label (scrobbler : ref) : string := getLabel (heap scrobbler).

Definition isScrobblerInArray (scrobbler : ref) (array : list ref) : bool :=
  existsb (fun s => String.eqb (label s) (label scrobbler)) array.

Definition bindScrobbler (st : State) (scrobbler : ref) : State :=
  if negb (isScrobblerInArray scrobbler (boundScrobblers st)) then
    write Log ("Bind " +:+ label scrobbler +:+ " scrobbler")
      (setBound (boundScrobblers st ++ [scrobbler]) st)
  else st.

(** The state holds the array that [bindAllScrobblers] returns. *)
Definition bindAllScrobblers (st : State) : State :=
  fold_left
    (fun st scrobbler =>
       match getSession (heap scrobbler) with
       | Fulfilled _ => bindScrobbler st scrobbler
       | Rejected _ => write Warn ("Unable to bind " +:+ label scrobbler) st
       end)
    registeredScrobblers st.

Definition unbindScrobbler (st : State) (scrobbler : ref) : State :=
  if isScrobblerInArray scrobbler (boundScrobblers st) then
    let index := indexOf scrobbler (boundScrobblers st) in
    write Log ("Unbind " +:+ label scrobbler +:+ " scrobbler")
      (setBound (splice1 index (boundScrobblers st)) st)
  else
    write Error (label scrobbler +:+ " is not bound") st.

Definition processErrorResult (st : State) (scrobbler : ref) (result : Value)
    : State * Outcome Value Value :=
  let isOtherError := strictEqualsString result ServiceCallResult.ERROR_OTHER in
  let isAuthError := strictEqualsString result ServiceCallResult.ERROR_AUTH in
  if negb (isOtherError || isAuthError) then
    (st, Rejected (VError "Error" ("Invalid result: " +:+ toString result)))
  else if isAuthError then
    match isReadyForGrantAccess (heap scrobbler) with
    | Fulfilled isReady =>
        (if negb isReady then unbindScrobbler st scrobbler else st,
         Fulfilled result)
    | Rejected e => (st, Rejected e)
    end
  else (st, Fulfilled result).

(** [request(scrobbler).catch((result) => this.processErrorResult(scrobbler, result))] *)
Definition forwardResult (request : ref -> Outcome Value Value)
    (st : State) (scrobbler : ref) : State * option (Outcome Value Value) :=
  match request scrobbler with
  | Fulfilled v => (st, Some (Fulfilled v))
  | Rejected result =>
      let '(st', o) := processErrorResult st scrobbler result in (st', Some o)
  end.

(** [Promise.all(scrobblers.map(...))] with the handler above, the body
    shared by [sendNowPlaying], [scrobble] and [toggleLove]. *)
Definition sendToEach (request : ref -> Outcome Value Value)
    (scrobblers : list ref) (schedule : list nat) (st : State)
    : Call (list Value) :=
  let '(st', events) :=
    settleInOrder (fun st _ scrobbler => forwardResult request st scrobbler)
      scrobblers schedule st in
  {| called := scrobblers;
     after := st';
     settled := JS.all (length scrobblers) events |}.

Definition requestText (name : string) (count : nat) : string :=
  "Send " +:+ dquote +:+ name +:+ dquote +:+ " request: " +:+ numToString count.

Definition getSongInfo (st : State) (songInfo : Song) (schedule : list nat)
    : Call (list Value) :=
  let scrobblers :=
    List.filter (fun scrobbler => canLoadSongInfo (heap scrobbler))
      registeredScrobblers in
  let st := write Log (requestText "get info" (length scrobblers)) st in
  let '(st', events) :=
    settleInOrder
      (fun st _ scrobbler =>
         match BaseScrobbler.getSongInfo (heap scrobbler) songInfo with
         | Fulfilled v => (st, Some (Fulfilled v))
         | Rejected _ =>
             (write Warn ("Unable to get song info from " +:+ label scrobbler) st,
              Some (Fulfilled VNull))
         end)
      scrobblers schedule st in
  {| called := scrobblers;
     after := st';
     settled := JS.all (length scrobblers) events |}.

Definition sendNowPlaying (st : State) (songInfo : Song) (schedule : list nat)
    : Call (list Value) :=
  let st := write Log (requestText "now playing" (length (boundScrobblers st))) st in
  sendToEach (fun scrobbler => BaseScrobbler.sendNowPlaying (heap scrobbler) songInfo)
    (boundScrobblers st) schedule st.

Definition scrobble (st : State) (songInfo : Song) (schedule : list nat)
    : Call (list Value) :=
  let st := write Log (requestText "scrobble" (length (boundScrobblers st))) st in
  sendToEach (fun scrobbler => BaseScrobbler.scrobble (heap scrobbler) songInfo)
    (boundScrobblers st) schedule st.

Definition toggleLove (st : State) (songInfo : Song) (flag : bool)
    (schedule : list nat) : Call (list Value) :=
  let scrobblers :=
    List.filter (fun scrobbler => canLoveSong (heap scrobbler))
      registeredScrobblers in
  let requestName := if flag then "love" else "unlove" in
  let st := write Log (requestText requestName (length scrobblers)) st in
  sendToEach
    (fun scrobbler => BaseScrobbler.toggleLove (heap scrobbler) songInfo flag)
    scrobblers schedule st.

(** The outcome of [scrobbleBatch]: the call, and the object
    [erroredScrobbles] as its rejection handlers left it. *)
Record BatchCall := {
  call : Call (list (option (list Z)));
  erroredScrobbles : gmap string Value
}.

(** [scrobbler.scrobbleBatch(songInfoArray).catch((trackIndices) => {...})],
    settling on the object [erroredScrobbles]; [i] is the position of the
    scrobbler among the bound ones and [chunkSchedules i] the order in
    which its chunk requests settle.  A fulfilled batch promise keeps its
    value, the array of failed indices; the rejection handler returns
    nothing, so its promise fulfils with [undefined] ([None]). *)
Definition batchRequest (songInfoArray : list Song)
    (chunkSchedules : nat -> list nat) (errored : gmap string Value)
    (i : nat) (scrobbler : ref)
    : gmap string Value * option (Outcome (option (list Z)) Value) :=
  match BaseScrobbler.scrobbleBatch (heap scrobbler) songInfoArray
          (chunkSchedules i) with
  | Some (Fulfilled indices) => (errored, Some (Fulfilled (Some indices)))
  | Some (Rejected trackIndices) =>
      (<[getId (heap scrobbler) := trackIndices]> errored, Some (Fulfilled None))
  | None => (errored, None)
  end.

(** [scrobbleBatch(songInfoArray)]; [schedule] is the order in which the
    scrobblers' batch promises settle.  In the handler of [Promise.all],
    [for ... of] over the plain object [erroredScrobbles] throws a
    [TypeError] before [setFailedSongIndices] is reached. *)
Definition scrobbleBatch (st : State) (songInfoArray : list Song)
    (chunkSchedules : nat -> list nat) (schedule : list nat) : BatchCall :=
  let st :=
    write Log ("Send batch " +:+ dquote +:+ "scrobble" +:+ dquote +:+ " request: "
               +:+ numToString (length (boundScrobblers st))) st in
  let scrobblers := boundScrobblers st in
  let '(errored, events) :=
    settleInOrder (batchRequest songInfoArray chunkSchedules)
      scrobblers schedule ∅ in
  {| call :=
       {| called := scrobblers;
          after := st;
          settled :=
            match JS.all (length scrobblers) events with
            | Some (Fulfilled values) => Some (Fulfilled values)
            | Some (Rejected err) =>
                if bool_decide (size errored = 0%nat) then Some (Rejected err)
                else Some (Rejected
                             (VError "TypeError" "erroredScrobbles is not iterable"))
            | None => None
            end |};
     erroredScrobbles := errored |}.

Definition getRegisteredScrobblers : list ref := registeredScrobblers.

(** [None] is [null]. *)
Definition getScrobblerById (scrobblerId : string) : option ref :=
  List.find (fun scrobbler => String.eqb (getId (heap scrobbler)) scrobblerId)
    registeredScrobblers.

End Service.

End ScrobbleService.

(** ** Vocabulary of the properties *)

Module Props.
Import BaseScrobbler ScrobbleService.

(** What [processErrorResult] forwards: the value a request fulfilled
    with, or the result it rejected with. *)
Definition forwarded (o : Outcome Value Value) : Value :=
  match o with
  | Fulfilled v => v
  | Rejected result => result
  end.

(** What the rejection handler of [getSongInfo] makes of a lookup. *)
Definition songInfoOrNull (o : Outcome Value Value) : Value :=
  match o with
  | Fulfilled songInfo => songInfo
  | Rejected _ => VNull
  end.

(** A request keeps to the result protocol when it fulfils, rejects with
    [ERROR_OTHER], or rejects with [ERROR_AUTH] while the scrobbler's
    ready-for-grant query resolves. *)
Definition withinProtocol (this : Scrobbler) (o : Outcome Value Value) : bool :=
  match o with
  | Fulfilled _ => true
  | Rejected result =>
      strictEqualsString result ServiceCallResult.ERROR_OTHER
      || (strictEqualsString result ServiceCallResult.ERROR_AUTH
          && match isReadyForGrantAccess this with
             | Fulfilled _ => true
             | Rejected _ => false
             end)
  end.

(** Session acquisition succeeded. *)
Definition sessionAcquired (heap : ref -> Scrobbler) (scrobbler : ref) : bool :=
  match getSession (heap scrobbler) with
  | Fulfilled _ => true
  | Rejected _ => false
  end.

(** The array [boundScrobblers] after one round of the loop of
    [bindAllScrobblers]. *)
Definition boundAfterAttempt (heap : ref -> Scrobbler) (bound : list ref)
    (scrobbler : ref) : list ref :=
  if sessionAcquired heap scrobbler
     && negb (isScrobblerInArray heap scrobbler bound)
  then bound ++ [scrobbler]
  else bound.

(** The labels of an array of scrobblers, in order. *)
Definition labels (heap : ref -> Scrobbler) (array : list ref) : list string :=
  label heap <$> array.

(** The chunks a scrobbler cuts a batch into. *)
Definition chunksOf (this : Scrobbler) (songInfoArray : list Song) : list (list Song) :=
  splitArrayToChunks songInfoArray (getMaxTrackCountToScrobble this).

(** Every chunk request fulfils or rejects with a list of indices. *)
Definition keepsBatchContract (this : Scrobbler) (songInfoArray : list Song) : bool :=
  forallb id
    (imap (fun chunkIndex chunk =>
             match scrobbleBatchWithLimit this chunkIndex chunk with
             | Rejected (Thrown _ _) => false
             | _ => true
             end)
       (chunksOf this songInfoArray)).

(** The chunk-relative indices that the request for chunk [chunkIndex]
    rejected with, none when it fulfilled. *)
Definition localFailures (this : Scrobbler) (songInfoArray : list Song)
    (chunkIndex : nat) : list Z :=
  match chunksOf this songInfoArray !! chunkIndex with
  | Some chunk =>
      match scrobbleBatchWithLimit this chunkIndex chunk with
      | Rejected (FailedIndices songIndices) => songIndices
      | _ => []
      end
  | None => []
  end.

(** The same indices, counted from the start of the batch. *)
Definition globalFailures (this : Scrobbler) (songInfoArray : list Song)
    (chunkIndex : nat) : list Z :=
  map (fun i => Z.of_nat chunkIndex * getMaxTrackCountToScrobble this + i)
    (localFailures this songInfoArray chunkIndex).

(** Sequences of [bindScrobbler] and [unbindScrobbler] calls. *)
Inductive Op :=
| Bind (scrobbler : ref)
| Unbind (scrobbler : ref).

Definition applyOp (heap : ref -> Scrobbler) (st : State) (op : Op) : State :=
  match op with
  | Bind scrobbler => bindScrobbler heap st scrobbler
  | Unbind scrobbler => unbindScrobbler heap st scrobbler
  end.

Definition applyOps (heap : ref -> Scrobbler) (ops : list Op) (st : State) : State :=
  fold_left (applyOp heap) ops st.

(** The spec of the service's [scrobbleBatch], in its words: given the
    failed indices that each bound scrobbler reports, the call resolves
    with no error when no scrobbler reports any; otherwise it fails with
    the partial-failure error whose map has, under its id, every
    scrobbler that reports failures, and no other. *)
Definition specScrobbleBatch (heap : ref -> Scrobbler) (bound : list ref)
    (failed : ref -> list Z) : Outcome unit ScrobbleBatchError.t :=
  if forallb (fun scrobbler => match failed scrobbler with
                               | [] => true
                               | _ => false
                               end) bound
  then Fulfilled tt
  else Rejected
         (fold_left
            (fun e scrobbler =>
               match failed scrobbler with
               | [] => e
               | indices =>
                   ScrobbleBatchError.setFailedSongIndices
                     (getId (heap scrobbler)) indices e
               end)
            bound (ScrobbleBatchError.new "Unable to scrobble songs")).

End Props.

(** ** Scenarios: scrobblers and a heap to run the service on *)

Module Scenario.
Import BaseScrobbler.

Definition ok : Value := VStr ServiceCallResult.RESULT_OK.
Definition errorAuth : Value := VStr ServiceCallResult.ERROR_AUTH.
Definition errorOther : Value := VStr ServiceCallResult.ERROR_OTHER.
Definition ignored : Value := VStr ServiceCallResult.RESULT_IGNORE.

(** A scrobbler with a valid session whose every request succeeds. *)
Definition working (id label : string) (maxTrackCount : Z) : Scrobbler := {|
  getId := id;
  getLabel := label;
  getMaxTrackCountToScrobble := maxTrackCount;
  canLoveSong := true;
  canLoadSongInfo := true;
  getSession := Fulfilled (VObj 100);
  isReadyForGrantAccess := Fulfilled false;
  sendNowPlaying := fun _ => Fulfilled ok;
  scrobble := fun _ => Fulfilled ok;
  toggleLove := fun _ _ => Fulfilled ok;
  getSongInfo := fun songInfo => Fulfilled songInfo;
  scrobbleBatchWithLimit := fun _ _ => Fulfilled ok
|}.

(** A scrobbler whose session has expired: every request is rejected with
    [ERROR_AUTH], and no grant is under way. *)
Definition signedOut (id label : string) (maxTrackCount : Z) : Scrobbler := {|
  getId := id;
  getLabel := label;
  getMaxTrackCountToScrobble := maxTrackCount;
  canLoveSong := true;
  canLoadSongInfo := true;
  getSession := Rejected errorAuth;
  isReadyForGrantAccess := Fulfilled false;
  sendNowPlaying := fun _ => Rejected errorAuth;
  scrobble := fun _ => Rejected errorAuth;
  toggleLove := fun _ _ => Rejected errorAuth;
  getSongInfo := fun _ => Rejected errorAuth;
  scrobbleBatchWithLimit := fun _ chunk =>
    Rejected (FailedIndices (map Z.of_nat (seq 0 (length chunk))))
|}.

(** A scrobbler whose service cannot be reached: [ERROR_OTHER]. *)
Definition offline (id label : string) (maxTrackCount : Z) : Scrobbler := {|
  getId := id;
  getLabel := label;
  getMaxTrackCountToScrobble := maxTrackCount;
  canLoveSong := false;
  canLoadSongInfo := true;
  getSession := Fulfilled (VObj 100);
  isReadyForGrantAccess := Fulfilled true;
  sendNowPlaying := fun _ => Rejected errorOther;
  scrobble := fun _ => Rejected errorOther;
  toggleLove := fun _ _ => Rejected errorOther;
  getSongInfo := fun _ => Rejected errorOther;
  scrobbleBatchWithLimit := fun _ chunk => Fulfilled ok
|}.

(** A scrobbler whose service turns every song down, and which reports
    that by rejecting with the result constant [RESULT_IGNORE]. *)
Definition declining (id label : string) (maxTrackCount : Z) : Scrobbler := {|
  getId := id;
  getLabel := label;
  getMaxTrackCountToScrobble := maxTrackCount;
  canLoveSong := false;
  canLoadSongInfo := false;
  getSession := Fulfilled (VObj 100);
  isReadyForGrantAccess := Fulfilled false;
  sendNowPlaying := fun _ => Rejected ignored;
  scrobble := fun _ => Rejected ignored;
  toggleLove := fun _ _ => Rejected ignored;
  getSongInfo := fun _ => Rejected ignored;
  scrobbleBatchWithLimit := fun _ chunk =>
    Rejected (FailedIndices (map Z.of_nat (seq 0 (length chunk))))
|}.

(** A working scrobbler whose request for chunk [failingChunk] is rejected
    with the chunk-relative indices [songIndices]. *)
Definition chunkFailing (id label : string) (maxTrackCount : Z)
    (failingChunk : nat) (songIndices : list Z) : Scrobbler := {|
  getId := id;
  getLabel := label;
  getMaxTrackCountToScrobble := maxTrackCount;
  canLoveSong := false;
  canLoadSongInfo := false;
  getSession := Fulfilled (VObj 100);
  isReadyForGrantAccess := Fulfilled false;
  sendNowPlaying := fun _ => Fulfilled ok;
  scrobble := fun _ => Fulfilled ok;
  toggleLove := fun _ _ => Fulfilled ok;
  getSongInfo := fun songInfo => Fulfilled songInfo;
  scrobbleBatchWithLimit := fun chunkIndex _ =>
    if Nat.eqb chunkIndex failingChunk then Rejected (FailedIndices songIndices)
    else Fulfilled ok
|}.

(** The objects of the scenarios.  References 4 and 5 are two further
    instances that carry the label of Last.fm under ids of their own;
    reference 7 and beyond override no request at all. *)
Definition heap (scrobbler : ref) : Scrobbler :=
  match scrobbler with
  | 0%nat => signedOut "lastfm" "Last.fm" 50
  | 1%nat => working "librefm" "Libre.fm" 50
  | 2%nat => chunkFailing "listenbrainz" "ListenBrainz" 3 1 [1]
  | 3%nat => offline "gnufm" "GNU FM" 50
  | 4%nat => working "lastfm-copy" "Last.fm" 50
  | 5%nat => working "lastfm-mirror" "Last.fm" 50
  | 6%nat => declining "gnufm-local" "GNU FM (local)" 50
  | _ => descendant "abstract" "Abstract" 50
  end.

Definition song : Song := VObj 0.

(** A batch of seven songs. *)
Definition batch : list Song :=
  [VObj 0; VObj 1; VObj 2; VObj 3; VObj 4; VObj 5; VObj 6].

Definition bound (scrobblers : list ref) : ScrobbleService.State :=
  {| ScrobbleService.boundScrobblers := scrobblers;
     ScrobbleService.console := [] |}.

End Scenario.

(** The events of promises that all fulfil, the one at position [k] with
    [val k t]. *)
Definition fulfilledEvents {T A E : Type} (val : nat -> T -> A)
    (targets : list T) (schedule : list nat) : list (nat * Outcome A E) :=
  omap (fun k => (fun t => (k, Fulfilled (val k t))) <$> targets !! k) schedule.

(** ** scrobbler/base-scrobbler: user properties and the session data *)

Module UserProperties.

(** [if (v)] *)
Definition truthy (v : Value) : bool :=
  match v with
  | VUndefined | VNull => false
  | VStr EmptyString => false
  | VStr _ => true
  | VError _ _ | VObj _ => true
  end.

(** An object received as [props], as the list of its own properties in
    the order [for ... in] visits them. *)
Definition Props := list (string * Value).

(** The properties that [applyProps] and [initUserProps] set on a
    scrobbler instance. *)
Definition Instance := gmap string Value.

(** The data object of a scrobbler storage: the session data and the
    user properties, each present or not. *)
Record Data := {
  sessionID : option Value;
  sessionName : option Value;
  token : option Value;
  properties : option (gmap string Value)
}.

(** [BaseScrobbler.getUsedDefinedProperties()] *)
Definition getUsedDefinedProperties : list string := [].

(** [this[prop] = props[prop]] for a truthy value, [delete this[prop]]
    for another. *)
Definition assign (prop : string) (propValue : Value)
    (object : gmap string Value) : gmap string Value :=
  if truthy propValue then <[prop := propValue]> object else delete prop object.

(** [applyProps(props, allowedProps)]: the instance as the loop left it,
    and whether the call returned or threw. *)
Fixpoint applyProps (props : Props) (allowedProps : list string) (this : Instance)
    : Instance * Outcome unit Value :=
  match props with
  | [] => (this, Fulfilled tt)
  | (prop, propValue) :: rest =>
      if negb (existsb (String.eqb prop) allowedProps) then
        (this, Rejected (VError "Error" ("Unknown property: " +:+ prop)))
      else
        match propValue with
        | VUndefined =>
            (this, Rejected (VError "Error" ("Property is not set: " +:+ prop)))
        | _ => applyProps rest allowedProps (assign prop propValue this)
        end
  end.

(** The loop of [applyUserProperties] over [data.properties]. *)
Definition storeProps (props : Props) (stored : gmap string Value)
    : gmap string Value :=
  fold_left (fun stored '(prop, propValue) => assign prop propValue stored)
    props stored.

(** Modelled from the spec: the scrobbler storage of
    [storage/browser-storage], which is not among the sources.  The spec
    has it hold, for one scrobbler, the session id, the session name, the
    token and the user properties; [get] answers the data it holds and
    [set] replaces it. *)
Definition storageGet (storage : Data) : Data := storage.

Definition storageSet (data : Data) (storage : Data) : Data := data.

(** [applyUserProperties(props)]; [allowedProps] is what the instance's
    [getUsedDefinedProperties()] answers. *)
Definition applyUserProperties (props : Props) (allowedProps : list string)
    (this : Instance) (storage : Data) : Instance * Data * Outcome unit Value :=
  match applyProps props allowedProps this with
  | (this', Rejected e) => (this', storage, Rejected e)
  | (this', Fulfilled _) =>
      let data := storageGet storage in
      let stored :=
        match properties data with
        | Some stored => stored
        | None => ∅
        end in
      let data :=
        {| sessionID := sessionID data;
           sessionName := sessionName data;
           token := token data;
           properties := Some (storeProps props stored) |} in
      (this', storageSet data storage, Fulfilled tt)
  end.

(** [initUserProps()]: every stored property is set on the instance. *)
Definition initUserProps (this : Instance) (storage : Data) : Instance :=
  match properties (storageGet storage) with
  | Some stored => stored ∪ this
  | None => this
  end.

(** [signOut()] *)
Definition signOut (storage : Data) : Data :=
  let data := storageGet storage in
  storageSet
    {| sessionID := None;
       sessionName := None;
       token := token data;
       properties := properties data |}
    storage.

(** The properties of [props] are named once each. *)
Definition keys (props : Props) : list string := props.*1.

(** [applyProps] accepts a property: it is allowed and not [undefined]. *)
Definition accepted (allowedProps : list string) (entry : string * Value) : bool :=
  existsb (String.eqb entry.1) allowedProps
  && match entry.2 with
     | VUndefined => false
     | _ => true
     end.

End UserProperties.

(** ** The saved song edits ([fillSongData], [saveSongData], [removeSongData]) *)

Module SavedEdits.

(** A song: its unique id, [None] for [null], and the object
    [song.processed]. *)
Record Song := {
  getUniqueId : option string;
  processed : gmap string Value
}.

(** The names every plain object answers for without owning them: the
    members of [Object.prototype].  For such a name [object[name]] is the
    inherited member unless the object has a property of its own, and
    [object.__proto__ = value] sets no property. *)
Definition inheritedNames : list string :=
  ["constructor"; "__defineGetter__"; "__defineSetter__"; "hasOwnProperty";
   "__lookupGetter__"; "__lookupSetter__"; "isPrototypeOf";
   "propertyIsEnumerable"; "toString"; "valueOf"; "__proto__";
   "toLocaleString"]%string.

(** [name] is none of them: [object[name]] is then the object's own
    property, or [undefined]. *)
Definition notInherited (name : string) : bool :=
  negb (existsb (String.eqb name) inheritedNames).

(** The local cache: for each song id the saved metadata object.  The map
    holds the properties the cache object has of its own. *)
Definition Storage := gmap string (gmap string Value).

(** [object[field]]: [undefined] for a property the object lacks. *)
Definition get (object : gmap string Value) (field : string) : Value :=
  match object !! field with
  | Some v => v
  | None => VUndefined
  end.

(** The id to file the song under: [if (!songId) return] sends back a song
    without id, and one whose id is the empty string. *)
Definition songKey (song : Song) : option string :=
  match getUniqueId song with
  | Some (String a s) => Some (String a s)
  | _ => None
  end.

(** The song is filed under a name that the cache object does not
    inherit, or under none. *)
Definition keyIsOwn (song : Song) : bool :=
  match songKey song with
  | Some songId => notInherited songId
  | None => true
  end.

(** [for (const field of fields) target[field] = source[field]] *)
Definition copyFields (fields : list string) (source target : gmap string Value)
    : gmap string Value :=
  fold_left (fun target field => <[field := get source field]> target)
    fields target.

Section Fields.

(** [Song.USER_FIELDS], a constant of [object/song]. *)
Variable USER_FIELDS : list string.

(** [fillSongData(song)]: the song as the call leaves it, and its answer. *)
Definition fillSongData (song : Song) (storage : Storage) : Song * bool :=
  match songKey song with
  | None => (song, false)
  | Some songId =>
      match storage !! songId with
      | Some savedMetadata =>
          ({| getUniqueId := getUniqueId song;
              processed := copyFields USER_FIELDS savedMetadata (processed song) |},
           true)
      | None => (song, false)
      end
  end.

(** [saveSongData(song, data)]: the storage as the call leaves it. *)
Definition saveSongData (song : Song) (data : gmap string Value)
    (storage : Storage) : Storage :=
  match songKey song with
  | None => storage
  | Some songId =>
      let saved :=
        match storage !! songId with
        | Some saved => saved
        | None => ∅
        end in
      <[songId := copyFields USER_FIELDS data saved]> storage
  end.

(** [removeSongData(song)] *)
Definition removeSongData (song : Song) (storage : Storage) : Storage :=
  match songKey song with
  | None => storage
  | Some songId => delete songId storage
  end.

End Fields.

End SavedEdits.

(** ** Further vocabulary *)

Module Further.
Import BaseScrobbler ScrobbleService.

(** The handler of the request unbinds the scrobbler: the request was
    rejected with [ERROR_AUTH] and the scrobbler is not ready for grant
    access. *)
Definition unbinds (heap : ref -> Scrobbler) (request : ref -> Outcome Value Value)
    (scrobbler : ref) : bool :=
  match request scrobbler with
  | Rejected result =>
      strictEqualsString result ServiceCallResult.ERROR_AUTH
      && match isReadyForGrantAccess (heap scrobbler) with
         | Fulfilled false => true
         | _ => false
         end
  | Fulfilled _ => false
  end.

(** Among the scrobblers that have settled, one that is [x] was unbound. *)
Definition unboundBy (heap : ref -> Scrobbler) (request : ref -> Outcome Value Value)
    (scrobblers : list ref) (schedule : list nat) (x : ref) : bool :=
  existsb
    (fun k => match scrobblers !! k with
              | Some scrobbler => Nat.eqb scrobbler x && unbinds heap request scrobbler
              | None => false
              end)
    schedule.

(** Every index that a chunk request reports lies within its chunk. *)
Definition failuresInChunk (this : Scrobbler) (songInfoArray : list Song) : Prop :=
  forall k chunk i,
    Props.chunksOf this songInfoArray !! k = Some chunk ->
    i ∈ Props.localFailures this songInfoArray k ->
    0 <= i < Z.of_nat (length chunk).

End Further.

(** ** Promises: settle events and [Promise.all] *)

Section PromiseLemmas.
Context {S T A E : Type}.
Implicit Types (handler : S -> nat -> T -> S * option (Outcome A E)).
Implicit Types (targets : list T) (schedule : list nat) (val : nat -> T -> A).

Lemma settleInOrder_fulfilled handler targets val schedule s :
  (forall s k t, targets !! k = Some t ->
                 (handler s k t).2 = Some (Fulfilled (val k t))) ->
  (settleInOrder handler targets schedule s).2
  = fulfilledEvents (E := E) val targets schedule.
Proof.
  intros Hval. revert s.
  induction schedule as [|k rest IH]; intros s; simpl; [reflexivity|].
  unfold fulfilledEvents in *. simpl.
  destruct (targets !! k) as [t|] eqn:Hk; simpl; [|apply IH].
  specialize (Hval s k t Hk).
  destruct (handler s k t) as [s1 o]. simpl in Hval. subst o.
  specialize (IH s1).
  destruct (settleInOrder handler targets rest s1) as [s2 events].
  simpl in *. now rewrite IH.
Qed.

Lemma firstRejection_fulfilled val targets schedule :
  firstRejection (fulfilledEvents (E := E) val targets schedule) = None.
Proof.
  unfold fulfilledEvents.
  induction schedule as [|k rest IH]; simpl; [reflexivity|].
  destruct (targets !! k); simpl; exact IH.
Qed.

Lemma slot_fulfilled val targets schedule k t :
  k ∈ schedule -> targets !! k = Some t ->
  slot (fulfilledEvents (E := E) val targets schedule) k = Some (val k t).
Proof.
  unfold fulfilledEvents. intros Hin Hk.
  induction schedule as [|j rest IH]; [now apply elem_of_nil in Hin|].
  simpl. destruct (decide (j = k)) as [->|Hne].
  - rewrite Hk. simpl. now rewrite Nat.eqb_refl.
  - apply elem_of_cons in Hin as [Heq|Hin]; [congruence|].
    destruct (targets !! j); simpl; [|now apply IH].
    apply Nat.eqb_neq in Hne. rewrite Hne. now apply IH.
Qed.

(** [Promise.all] over promises that all fulfil, whatever the order they
    settle in, fulfils with their values in array order. *)
Lemma all_fulfilled val targets schedule :
  schedule ≡ₚ seq 0 (length targets) ->
  JS.all (length targets) (fulfilledEvents (E := E) val targets schedule)
  = Some (Fulfilled (imap val targets)).
Proof.
  intros Hperm. unfold JS.all. rewrite firstRejection_fulfilled.
  assert (Hm : mapM (slot (fulfilledEvents (E := E) val targets schedule))
                 (seq 0 (length targets)) = Some (imap val targets)).
  { apply mapM_Some_2, Forall2_same_length_lookup_2.
    - now rewrite length_seq, length_imap.
    - intros i k y Hseq Himap.
      apply lookup_seq in Hseq as [-> Hlt]. simpl in *.
      rewrite list_lookup_imap in Himap.
      destruct (targets !! i) as [t|] eqn:Hi; simpl in Himap; [|discriminate].
      injection Himap as <-.
      apply slot_fulfilled; [|exact Hi].
      rewrite Hperm. apply elem_of_seq. lia. }
  now rewrite Hm.
Qed.

End PromiseLemmas.

(** ** Arrays of scrobblers: [indexOf], [splice] and the label test *)

Section Registry.
Import BaseScrobbler ScrobbleService Props.
Variable heap : ref -> Scrobbler.
Implicit Types (st : State) (scrobbler : ref) (array bound : list ref).

Lemma indexOfFrom_absent scrobbler array i :
  scrobbler ∉ array -> indexOfFrom scrobbler array i = -1.
Proof.
  revert i. induction array as [|y rest IH]; intros i Hnot; simpl; [reflexivity|].
  apply not_elem_of_cons in Hnot as [Hne Hnot].
  destruct (Nat.eqb_spec y scrobbler); [congruence|]. now apply IH.
Qed.

Lemma indexOfFrom_found scrobbler array i :
  scrobbler ∈ array ->
  exists n : nat,
    indexOfFrom scrobbler array i = i + Z.of_nat n /\ array !! n = Some scrobbler.
Proof.
  revert i. induction array as [|y rest IH]; intros i Hin; simpl.
  - now apply elem_of_nil in Hin.
  - destruct (Nat.eqb_spec y scrobbler) as [->|Hne].
    + exists 0%nat. split; [lia|reflexivity].
    + apply elem_of_cons in Hin as [Heq|Hin]; [congruence|].
      destruct (IH (i + 1) Hin) as (n & Hidx & Hn).
      exists (Datatypes.S n). split; [lia|exact Hn].
Qed.

(** [splice(indexOf(scrobbler), 1)] removes the scrobbler when the array
    holds it, and the last element when it does not. *)
Lemma splice1_indexOf_found scrobbler array :
  scrobbler ∈ array ->
  exists n : nat,
    array !! n = Some scrobbler /\
    splice1 (indexOf scrobbler array) array = delete n array.
Proof.
  intros Hin. destruct (indexOfFrom_found scrobbler array 0 Hin) as (n & Hidx & Hn).
  exists n. split; [exact Hn|].
  unfold splice1, indexOf. rewrite Hidx.
  apply lookup_lt_Some in Hn.
  destruct (0 + Z.of_nat n <? 0) eqn:Hneg; [lia|].
  f_equal. lia.
Qed.

Lemma splice1_indexOf_absent scrobbler array :
  scrobbler ∉ array ->
  splice1 (indexOf scrobbler array) array = delete (length array - 1)%nat array.
Proof.
  intros Hnot. unfold splice1, indexOf. rewrite indexOfFrom_absent by exact Hnot.
  simpl. f_equal. lia.
Qed.

Lemma splice1_indexOf_delete scrobbler array :
  exists n : nat, splice1 (indexOf scrobbler array) array = delete n array.
Proof.
  destruct (decide (scrobbler ∈ array)) as [Hin|Hnot].
  - destruct (splice1_indexOf_found _ _ Hin) as (n & _ & Heq). eauto.
  - rewrite splice1_indexOf_absent by exact Hnot. eauto.
Qed.

Lemma delete_NoDup_lookup (array : list ref) n scrobbler :
  NoDup array -> array !! n = Some scrobbler ->
  forall x, x ∈ delete n array <-> x ∈ array /\ x <> scrobbler.
Proof.
  intros Hnd Hn x. rewrite delete_take_drop.
  rewrite <- (take_drop_middle array n scrobbler Hn) in Hnd at 1.
  rewrite <- (take_drop_middle array n scrobbler Hn) at 3.
  apply NoDup_app in Hnd as (_ & Hdisj & Hnd).
  apply NoDup_cons in Hnd as [Hnot _].
  rewrite !elem_of_app, elem_of_cons. split.
  - intros [Hx|Hx].
    + split; [now left|]. intros ->. apply (Hdisj _ Hx). now left.
    + split; [now right; right|]. now intros ->.
  - intros [[Hx|[->|Hx]] Hne]; [now left|congruence|now right].
Qed.

Lemma isScrobblerInArray_labels scrobbler array :
  isScrobblerInArray heap scrobbler array = true
  <-> label heap scrobbler ∈ labels heap array.
Proof.
  unfold isScrobblerInArray, labels. rewrite existsb_exists, list_elem_of_fmap.
  split.
  - intros (s & Hin & Heq). apply String.eqb_eq in Heq.
    exists s. split; [now symmetry|now apply list_elem_of_In].
  - intros (s & Heq & Hin). exists s. split; [now apply list_elem_of_In|].
    apply String.eqb_eq. now symmetry.
Qed.

Lemma isScrobblerInArray_self scrobbler array :
  scrobbler ∈ array -> isScrobblerInArray heap scrobbler array = true.
Proof.
  intros Hin. apply isScrobblerInArray_labels. unfold labels.
  now apply list_elem_of_fmap_2.
Qed.

Lemma labels_NoDup array : NoDup (labels heap array) -> NoDup array.
Proof. apply NoDup_fmap_1. Qed.

(** *** [bindScrobbler] and [unbindScrobbler] on the array alone *)

Lemma bindScrobbler_bound st scrobbler :
  boundScrobblers (bindScrobbler heap st scrobbler)
  = if isScrobblerInArray heap scrobbler (boundScrobblers st)
    then boundScrobblers st
    else boundScrobblers st ++ [scrobbler].
Proof.
  unfold bindScrobbler.
  now destruct (isScrobblerInArray heap scrobbler (boundScrobblers st)).
Qed.

Lemma unbindScrobbler_bound st scrobbler :
  boundScrobblers (unbindScrobbler heap st scrobbler)
  = if isScrobblerInArray heap scrobbler (boundScrobblers st)
    then splice1 (indexOf scrobbler (boundScrobblers st)) (boundScrobblers st)
    else boundScrobblers st.
Proof.
  unfold unbindScrobbler.
  now destruct (isScrobblerInArray heap scrobbler (boundScrobblers st)).
Qed.

Lemma bindScrobbler_labels_NoDup st scrobbler :
  NoDup (labels heap (boundScrobblers st)) ->
  NoDup (labels heap (boundScrobblers (bindScrobbler heap st scrobbler))).
Proof.
  intros Hnd. rewrite bindScrobbler_bound.
  destruct (isScrobblerInArray heap scrobbler (boundScrobblers st)) eqn:Hin;
    [exact Hnd|].
  unfold labels in *. rewrite fmap_app. apply NoDup_app.
  split; [exact Hnd|]. split; [|apply NoDup_singleton].
  intros x Hx Hx'. apply list_elem_of_singleton in Hx'. subst x.
  apply isScrobblerInArray_labels in Hx. congruence.
Qed.

Lemma unbindScrobbler_sublist st scrobbler :
  boundScrobblers (unbindScrobbler heap st scrobbler)
    `sublist_of` boundScrobblers st.
Proof.
  rewrite unbindScrobbler_bound.
  destruct (isScrobblerInArray heap scrobbler (boundScrobblers st)); [|reflexivity].
  destruct (splice1_indexOf_delete scrobbler (boundScrobblers st)) as [n ->].
  apply sublist_delete.
Qed.

Lemma unbindScrobbler_labels_NoDup st scrobbler :
  NoDup (labels heap (boundScrobblers st)) ->
  NoDup (labels heap (boundScrobblers (unbindScrobbler heap st scrobbler))).
Proof.
  intros Hnd. eapply sublist_NoDup; [exact Hnd|].
  unfold labels. apply fmap_sublist, unbindScrobbler_sublist.
Qed.

(** Unbinding a scrobbler that the array holds removes it and nothing else. *)
Lemma unbindScrobbler_removes st scrobbler :
  NoDup (boundScrobblers st) -> scrobbler ∈ boundScrobblers st ->
  forall x, x ∈ boundScrobblers (unbindScrobbler heap st scrobbler)
            <-> x ∈ boundScrobblers st /\ x <> scrobbler.
Proof.
  intros Hnd Hin x. rewrite unbindScrobbler_bound.
  rewrite (isScrobblerInArray_self _ _ Hin).
  destruct (splice1_indexOf_found _ _ Hin) as (n & Hn & ->).
  now apply delete_NoDup_lookup.
Qed.

(** After unbinding, the array does not hold the scrobbler. *)
Lemma unbindScrobbler_not_elem st scrobbler :
  NoDup (boundScrobblers st) ->
  scrobbler ∉ boundScrobblers (unbindScrobbler heap st scrobbler).
Proof.
  intros Hnd. destruct (decide (scrobbler ∈ boundScrobblers st)) as [Hin|Hnot].
  - rewrite (unbindScrobbler_removes st scrobbler Hnd Hin). now intros [_ ?].
  - intros Hx. apply Hnot.
    eapply elem_of_sublist; [exact Hx|apply unbindScrobbler_sublist].
Qed.

End Registry.

(** ** Single-action dispatch *)

Section Dispatch.
Import BaseScrobbler ScrobbleService Props.
Variable heap : ref -> Scrobbler.
Implicit Types (st : State) (scrobbler : ref) (schedule : list nat).

Lemma strictEqualsString_true v s :
  strictEqualsString v s = true <-> v = VStr s.
Proof.
  destruct v; simpl; try (split; [discriminate|intros [=]]).
  rewrite String.eqb_eq. split; [now intros ->|now intros [= ->]].
Qed.

(** A request within the protocol is forwarded as a value, whatever the
    state its handler runs in. *)
Lemma forwardResult_outcome (request : ref -> Outcome Value Value) st scrobbler :
  withinProtocol (heap scrobbler) (request scrobbler) = true ->
  (forwardResult heap request st scrobbler).2
  = Some (Fulfilled (forwarded (request scrobbler))).
Proof.
  unfold forwardResult, withinProtocol, processErrorResult.
  destruct (request scrobbler) as [v|result]; simpl; [reflexivity|].
  destruct (strictEqualsString result ServiceCallResult.ERROR_OTHER) eqn:Hother;
    destruct (strictEqualsString result ServiceCallResult.ERROR_AUTH) eqn:Hauth;
    simpl; try discriminate; try reflexivity.
  - apply strictEqualsString_true in Hother, Hauth.
    rewrite Hother in Hauth. discriminate Hauth.
  - destruct (isReadyForGrantAccess (heap scrobbler)); simpl;
      [reflexivity|discriminate].
Qed.

Lemma sendToEach_settled (request : ref -> Outcome Value Value)
    (scrobblers : list ref) schedule st :
  schedule ≡ₚ seq 0 (length scrobblers) ->
  (forall scrobbler, scrobbler ∈ scrobblers ->
     withinProtocol (heap scrobbler) (request scrobbler) = true) ->
  settled (sendToEach heap request scrobblers schedule st)
  = Some (Fulfilled ((fun scrobbler => forwarded (request scrobbler)) <$> scrobblers)).
Proof.
  intros Hperm Hprot. unfold sendToEach.
  pose proof (settleInOrder_fulfilled
    (fun st (_ : nat) scrobbler => forwardResult heap request st scrobbler)
    scrobblers (fun _ scrobbler => forwarded (request scrobbler)) schedule st) as Hev.
  destruct (settleInOrder _ scrobblers schedule st) as [st' events].
  simpl in *. rewrite Hev.
  - rewrite all_fulfilled by exact Hperm. do 2 f_equal.
    apply (imap_const (fun scrobbler => forwarded (request scrobbler))).
  - intros s k t Hk. apply forwardResult_outcome, Hprot.
    eapply list_elem_of_lookup_2, Hk.
Qed.

Lemma sendToEach_called (request : ref -> Outcome Value Value)
    (scrobblers : list ref) schedule st :
  called (sendToEach heap request scrobblers schedule st) = scrobblers.
Proof.
  unfold sendToEach. now destruct (settleInOrder _ scrobblers schedule st).
Qed.

(** C1, as amended.  Let the K bound scrobblers' requests settle in any
    order.  For [sendNowPlaying] and for [scrobble]: when every request
    that fails is rejected with [ERROR_AUTH] or [ERROR_OTHER], and the
    ready-for-grant query of every scrobbler rejected with [ERROR_AUTH]
    resolves, the call resolves with exactly K results, in the order of
    the bound scrobblers; the i-th is the value the i-th scrobbler
    fulfilled with or the error result it was rejected with, however
    many of the K requests fail. *)
Theorem settle_all_within_protocol st songInfo schedule :
  schedule ≡ₚ seq 0 (length (boundScrobblers st)) ->
  ((forall scrobbler, scrobbler ∈ boundScrobblers st ->
      withinProtocol (heap scrobbler)
        (BaseScrobbler.sendNowPlaying (heap scrobbler) songInfo) = true) ->
   exists results,
     settled (sendNowPlaying heap st songInfo schedule) = Some (Fulfilled results)
     /\ length results = length (boundScrobblers st)
     /\ results
        = (fun scrobbler =>
             forwarded (BaseScrobbler.sendNowPlaying (heap scrobbler) songInfo))
          <$> boundScrobblers st)
  /\
  ((forall scrobbler, scrobbler ∈ boundScrobblers st ->
      withinProtocol (heap scrobbler)
        (BaseScrobbler.scrobble (heap scrobbler) songInfo) = true) ->
   exists results,
     settled (scrobble heap st songInfo schedule) = Some (Fulfilled results)
     /\ length results = length (boundScrobblers st)
     /\ results
        = (fun scrobbler =>
             forwarded (BaseScrobbler.scrobble (heap scrobbler) songInfo))
          <$> boundScrobblers st).
Proof.
  intros Hperm. split; intros Hprot; eexists;
    (split; [|split; [|reflexivity]]).
  - unfold sendNowPlaying. simpl.
    apply (sendToEach_settled
      (fun scrobbler => BaseScrobbler.sendNowPlaying (heap scrobbler) songInfo));
      assumption.
  - now rewrite length_fmap.
  - unfold scrobble. simpl.
    apply (sendToEach_settled
      (fun scrobbler => BaseScrobbler.scrobble (heap scrobbler) songInfo));
      assumption.
  - now rewrite length_fmap.
Qed.

End Dispatch.

(** C1 at work: Last.fm is rejected with [ERROR_AUTH], GNU FM with
    [ERROR_OTHER], Libre.fm succeeds, and GNU FM settles first. *)
Lemma settle_all_within_protocol_witness :
  ScrobbleService.settled (ScrobbleService.scrobble Scenario.heap (Scenario.bound [0; 1; 3]%nat)
             Scenario.song [2; 0; 1]%nat)
  = Some (Fulfilled [Scenario.errorAuth; Scenario.ok; Scenario.errorOther]).
Proof.
  destruct (settle_all_within_protocol Scenario.heap
              (Scenario.bound [0; 1; 3]%nat) Scenario.song [2; 0; 1]%nat)
    as [_ Hscrobble]; [compute_done|].
  destruct Hscrobble as (results & Hsettled & _ & Hresults).
  - intros scrobbler Hin. simpl in Hin.
    repeat (apply elem_of_cons in Hin as [->|Hin]; [reflexivity|]).
    now apply elem_of_nil in Hin.
  - rewrite Hsettled, Hresults. reflexivity.
Defined.

(** C1 as stated fails: a bound scrobbler is rejected with the result
    constant [RESULT_IGNORE]; [processErrorResult] throws on it, the call
    rejects, and the result of Libre.fm is lost. *)
Lemma settle_all_counterexample :
  BaseScrobbler.scrobble (Scenario.heap 6%nat) Scenario.song
  = Rejected (VStr ServiceCallResult.RESULT_IGNORE)
  /\ ScrobbleService.settled
       (ScrobbleService.scrobble Scenario.heap (Scenario.bound [6; 1]%nat)
          Scenario.song [0; 1]%nat)
     = Some (Rejected (VError "Error" "Invalid result: ignored"))
  /\ ~ (exists results,
          ScrobbleService.settled
            (ScrobbleService.scrobble Scenario.heap (Scenario.bound [6; 1]%nat)
               Scenario.song [0; 1]%nat)
          = Some (Fulfilled results) /\ length results = 2%nat).
Proof.
  split; [reflexivity|]. split; [reflexivity|].
  intros (results & Hsettled & _). discriminate Hsettled.
Qed.

(** ** The binding registry *)

Section Binding.
Import BaseScrobbler ScrobbleService Props.
Variable heap : ref -> Scrobbler.
Implicit Types (st : State) (scrobbler : ref) (bound : list ref).

Lemma bindAllScrobblers_bound (registeredScrobblers : list ref) st :
  boundScrobblers (bindAllScrobblers heap registeredScrobblers st)
  = fold_left (boundAfterAttempt heap) registeredScrobblers (boundScrobblers st).
Proof.
  unfold bindAllScrobblers. revert st.
  induction registeredScrobblers as [|scrobbler rest IH]; intros st; simpl;
    [reflexivity|].
  rewrite IH. f_equal. unfold boundAfterAttempt, sessionAcquired.
  destruct (getSession (heap scrobbler)); simpl; [|reflexivity].
  rewrite bindScrobbler_bound.
  now destruct (isScrobblerInArray heap scrobbler (boundScrobblers st)).
Qed.

Lemma boundAfterAttempt_incl bound scrobbler x :
  x ∈ bound -> x ∈ boundAfterAttempt heap bound scrobbler.
Proof.
  unfold boundAfterAttempt. intros Hx.
  destruct (_ && _); [apply elem_of_app; now left|exact Hx].
Qed.

Lemma attempts_incl (scrobblers : list ref) bound x :
  x ∈ bound -> x ∈ fold_left (boundAfterAttempt heap) scrobblers bound.
Proof.
  revert bound. induction scrobblers as [|s rest IH]; intros bound Hx; simpl;
    [exact Hx|].
  now apply IH, boundAfterAttempt_incl.
Qed.




(** No attempt is skipped: a scrobbler whose session was acquired is bound,
    or an earlier scrobbler with its label is. *)
Lemma attempts_label_bound (scrobblers : list ref) bound scrobbler :
  scrobbler ∈ scrobblers -> sessionAcquired heap scrobbler = true ->
  label heap scrobbler
    ∈ labels heap (fold_left (boundAfterAttempt heap) scrobblers bound).
Proof.
  revert bound. induction scrobblers as [|s rest IH]; intros bound Hin Hok.
  - now apply elem_of_nil in Hin.
  - simpl. apply elem_of_cons in Hin as [->|Hin]; [|now apply IH].
    assert (Hstep : exists x, x ∈ boundAfterAttempt heap bound s
                              /\ label heap x = label heap s).
    { unfold boundAfterAttempt. rewrite Hok. simpl.
      destruct (isScrobblerInArray heap s bound) eqn:Hs; simpl.
      - apply isScrobblerInArray_labels in Hs. unfold labels in Hs.
        apply list_elem_of_fmap in Hs as (x & Heq & Hx). eauto.
      - exists s. split; [|reflexivity]. apply elem_of_app. right.
        now apply list_elem_of_singleton. }
    destruct Hstep as (x & Hx & Heq). rewrite <- Heq. unfold labels.
    apply list_elem_of_fmap_2. now apply attempts_incl.
Qed.






End Binding.



(** ** Membership by label, [unbindScrobbler] and [processErrorResult] *)

Section Membership.
Import BaseScrobbler ScrobbleService Props.
Variable heap : ref -> Scrobbler.
Implicit Types (st : State) (scrobbler : ref) (bound : list ref) (ops : list Op).

Lemma applyOps_labels_NoDup ops st :
  NoDup (labels heap (boundScrobblers st)) ->
  NoDup (labels heap (boundScrobblers (applyOps heap ops st))).
Proof.
  unfold applyOps. revert st.
  induction ops as [|op rest IH]; intros st Hnd; simpl; [exact Hnd|].
  apply IH. destruct op; simpl.
  - now apply bindScrobbler_labels_NoDup.
  - now apply unbindScrobbler_labels_NoDup.
Qed.

Lemma labels_NoDup_inj bound x y :
  NoDup (labels heap bound) -> x ∈ bound -> y ∈ bound ->
  label heap x = label heap y -> x = y.
Proof.
  unfold labels. induction bound as [|z rest IH]; intros Hnd Hx Hy Heq.
  - now apply elem_of_nil in Hx.
  - rewrite fmap_cons in Hnd. apply NoDup_cons in Hnd as [Hz Hnd].
    apply elem_of_cons in Hx as [->|Hx]; apply elem_of_cons in Hy as [->|Hy].
    + reflexivity.
    + exfalso. apply Hz. rewrite Heq. now apply list_elem_of_fmap_2.
    + exfalso. apply Hz. rewrite <- Heq. now apply list_elem_of_fmap_2.
    + now apply IH.
Qed.

Lemma isScrobblerInArray_false scrobbler bound :
  isScrobblerInArray heap scrobbler bound = false
  <-> ~ (exists s, s ∈ bound /\ label heap s = label heap scrobbler).
Proof.
  rewrite <- not_true_iff_false, isScrobblerInArray_labels. unfold labels.
  rewrite list_elem_of_fmap. split; intros Hnot (s & H1 & H2); apply Hnot; eauto.
Qed.

Lemma isScrobblerInArray_true scrobbler bound :
  isScrobblerInArray heap scrobbler bound = true
  <-> exists s, s ∈ bound /\ label heap s = label heap scrobbler.
Proof.
  rewrite isScrobblerInArray_labels. unfold labels. rewrite list_elem_of_fmap.
  split; intros (s & H1 & H2); eauto.
Qed.

(** C10.  Whether a scrobbler counts as bound is decided by its label:
    [bindScrobbler] appends the scrobbler exactly when no bound scrobbler
    has its label, and [unbindScrobbler] reports it as not bound, changing
    nothing, exactly when no bound scrobbler has its label.  Hence no
    sequence of bind and unbind calls, from a Bound Set without shared
    labels and so from the empty one, leads to two members with one label;
    a scrobbler whose id differs from that of a bound scrobbler with the
    same label is not bound and binding it changes nothing; and two
    distinct scrobblers with one label are never bound together. *)
Theorem membership_by_label :
  (forall st scrobbler,
     (exists s, s ∈ boundScrobblers st /\ label heap s = label heap scrobbler) ->
     bindScrobbler heap st scrobbler = st)
  /\ (forall st scrobbler,
        ~ (exists s, s ∈ boundScrobblers st /\ label heap s = label heap scrobbler) ->
        boundScrobblers (bindScrobbler heap st scrobbler)
        = boundScrobblers st ++ [scrobbler])
  /\ (forall st scrobbler,
        ~ (exists s, s ∈ boundScrobblers st /\ label heap s = label heap scrobbler) <->
        unbindScrobbler heap st scrobbler
        = write Error (label heap scrobbler +:+ " is not bound") st)
  /\ (forall ops st,
        NoDup (labels heap (boundScrobblers st)) ->
        NoDup (labels heap (boundScrobblers (applyOps heap ops st))))
  /\ (forall ops, NoDup (labels heap (boundScrobblers (applyOps heap ops initial))))
  /\ (forall st scrobbler s,
        NoDup (labels heap (boundScrobblers st)) ->
        s ∈ boundScrobblers st ->
        getId (heap s) <> getId (heap scrobbler) ->
        label heap s = label heap scrobbler ->
        (scrobbler ∉ boundScrobblers st)
        /\ bindScrobbler heap st scrobbler = st)
  /\ (forall ops scrobbler s,
        s <> scrobbler -> label heap s = label heap scrobbler ->
        s ∈ boundScrobblers (applyOps heap ops initial) ->
        scrobbler ∉ boundScrobblers (applyOps heap ops initial)).
Proof.
  assert (Hbind : forall st scrobbler,
    (exists s, s ∈ boundScrobblers st /\ label heap s = label heap scrobbler) ->
    bindScrobbler heap st scrobbler = st).
  { intros st scrobbler Hin. apply isScrobblerInArray_true in Hin.
    unfold bindScrobbler. now rewrite Hin. }
  assert (Hinit : forall ops,
    NoDup (labels heap (boundScrobblers (applyOps heap ops initial)))).
  { intros ops. apply applyOps_labels_NoDup. constructor. }
  split; [exact Hbind|]. split; [|split; [|split; [|split; [|split]]]].
  - intros st scrobbler Hnot. apply isScrobblerInArray_false in Hnot.
    rewrite bindScrobbler_bound. now rewrite Hnot.
  - intros st scrobbler. rewrite <- isScrobblerInArray_false.
    unfold unbindScrobbler.
    destruct (isScrobblerInArray heap scrobbler (boundScrobblers st)); split;
      try reflexivity; try discriminate.
    unfold write. intros [= _ Hconsole].
    apply app_inv_head in Hconsole. discriminate Hconsole.
  - intros ops st. apply applyOps_labels_NoDup.
  - exact Hinit.
  - intros st scrobbler s Hnd Hs Hid Hlabel. split.
    + intros Hin. apply Hid. f_equal. f_equal.
      now apply (labels_NoDup_inj (boundScrobblers st)).
    + apply Hbind. eauto.
  - intros ops scrobbler s Hne Hlabel Hs Hin. apply Hne.
    now apply (labels_NoDup_inj (boundScrobblers (applyOps heap ops initial))).
Qed.

(** Unbinding a scrobbler whose label no bound scrobbler has is reported
    on the console and changes nothing else. *)
Lemma unbindScrobbler_unknown_label st scrobbler :
  isScrobblerInArray heap scrobbler (boundScrobblers st) = false ->
  unbindScrobbler heap st scrobbler
  = write Error (label heap scrobbler +:+ " is not bound") st.
Proof. intros Hnot. unfold unbindScrobbler. now rewrite Hnot. Qed.

(** C3.  On a Bound Set without repetition, [processErrorResult]:
    with [ERROR_AUTH] and a scrobbler not ready for grant access, leaves
    the scrobbler out of the Bound Set (and, when it was a member, keeps
    every other member); with [ERROR_AUTH] and a scrobbler ready for grant
    access, changes nothing; with [ERROR_OTHER], changes nothing; with any
    other value, fails with the error [Invalid result: ...]; and whenever
    it does not fail it returns the result it was given. *)
Theorem processErrorResult_cases st scrobbler result :
  NoDup (boundScrobblers st) ->
  (result = VStr ServiceCallResult.ERROR_AUTH ->
   isReadyForGrantAccess (heap scrobbler) = Fulfilled false ->
   exists st',
     processErrorResult heap st scrobbler result = (st', Fulfilled result)
     /\ (scrobbler ∉ boundScrobblers st')
     /\ (scrobbler ∈ boundScrobblers st ->
         forall x, x ∈ boundScrobblers st'
                   <-> x ∈ boundScrobblers st /\ x <> scrobbler))
  /\ (result = VStr ServiceCallResult.ERROR_AUTH ->
      isReadyForGrantAccess (heap scrobbler) = Fulfilled true ->
      processErrorResult heap st scrobbler result = (st, Fulfilled result))
  /\ (result = VStr ServiceCallResult.ERROR_OTHER ->
      processErrorResult heap st scrobbler result = (st, Fulfilled result))
  /\ (result <> VStr ServiceCallResult.ERROR_AUTH ->
      result <> VStr ServiceCallResult.ERROR_OTHER ->
      processErrorResult heap st scrobbler result
      = (st, Rejected (VError "Error" ("Invalid result: " +:+ toString result))))
  /\ (forall st' v,
        processErrorResult heap st scrobbler result = (st', Fulfilled v) ->
        v = result).
Proof.
  intros Hnd. split; [|split; [|split; [|split]]].
  - intros -> Hready. exists (unbindScrobbler heap st scrobbler).
    split; [|split].
    + unfold processErrorResult. simpl. now rewrite Hready.
    + now apply unbindScrobbler_not_elem.
    + intros Hin. now apply unbindScrobbler_removes.
  - intros -> Hready. unfold processErrorResult. simpl. now rewrite Hready.
  - intros ->. reflexivity.
  - intros Hauth Hother. unfold processErrorResult.
    destruct (strictEqualsString result ServiceCallResult.ERROR_OTHER) eqn:H1.
    { apply strictEqualsString_true in H1. contradiction. }
    destruct (strictEqualsString result ServiceCallResult.ERROR_AUTH) eqn:H2.
    { apply strictEqualsString_true in H2. contradiction. }
    reflexivity.
  - intros st' v. unfold processErrorResult.
    destruct (negb _); [discriminate|].
    destruct (strictEqualsString result ServiceCallResult.ERROR_AUTH).
    + destruct (isReadyForGrantAccess (heap scrobbler)); [|discriminate].
      now intros [= _ <-].
    + now intros [= _ <-].
Qed.

End Membership.

(** C10 at work: with Last.fm and Libre.fm bound, binding a second
    instance labelled Last.fm changes nothing. *)
Lemma membership_by_label_witness :
  (0%nat ∈ [0; 1]%nat)
  /\ (4%nat ∉ [0; 1]%nat)
  /\ ScrobbleService.bindScrobbler Scenario.heap (Scenario.bound [0; 1]%nat) 4%nat
     = Scenario.bound [0; 1]%nat.
Proof.
  destruct (membership_by_label Scenario.heap) as (_ & _ & _ & _ & _ & Hlabel & _).
  destruct (Hlabel (Scenario.bound [0; 1]%nat) 4%nat 0%nat) as [Hnot Hbind].
  - compute_done.
  - compute_done.
  - discriminate.
  - reflexivity.
  - split; [compute_done|]. split; [exact Hnot|exact Hbind].
Defined.

(** C3 at work: Last.fm is rejected with [ERROR_AUTH] while no grant is
    under way, and leaves the Bound Set. *)
Lemma processErrorResult_cases_witness :
  exists st',
    ScrobbleService.processErrorResult Scenario.heap (Scenario.bound [0; 1]%nat)
      0%nat Scenario.errorAuth
    = (st', Fulfilled Scenario.errorAuth)
    /\ (0%nat ∉ ScrobbleService.boundScrobblers st')
    /\ (1%nat ∈ ScrobbleService.boundScrobblers st').
Proof.
  destruct (processErrorResult_cases Scenario.heap (Scenario.bound [0; 1]%nat)
              0%nat Scenario.errorAuth) as [Hauth _]; [compute_done|].
  destruct (Hauth eq_refl eq_refl) as (st' & Hres & Hnot & Hrest).
  exists st'. split; [exact Hres|]. split; [exact Hnot|].
  apply Hrest; [compute_done|]. split; [compute_done|discriminate].
Defined.

(** C7 fails on the code: Last.fm and Libre.fm are bound, and a second
    instance labelled Last.fm, with an id of its own, is not.  Unbinding
    that instance reports nothing and removes Libre.fm, the last element:
    the label test succeeds, [indexOf] answers [-1], and [splice(-1, 1)]
    cuts from the end. *)
Lemma unbindScrobbler_removes_last_element :
  let st := Props.applyOps Scenario.heap [Props.Bind 0%nat; Props.Bind 1%nat]
              ScrobbleService.initial in
  ScrobbleService.boundScrobblers st = [0; 1]%nat
  /\ (4%nat ∉ ScrobbleService.boundScrobblers st)
  /\ (forall s, s ∈ ScrobbleService.boundScrobblers st ->
        BaseScrobbler.getId (Scenario.heap s)
        <> BaseScrobbler.getId (Scenario.heap 4%nat))
  /\ indexOf 4%nat (ScrobbleService.boundScrobblers st) = -1
  /\ ScrobbleService.boundScrobblers
       (ScrobbleService.unbindScrobbler Scenario.heap st 4%nat) = [0]%nat
  /\ ScrobbleService.console
       (ScrobbleService.unbindScrobbler Scenario.heap st 4%nat)
     = ScrobbleService.console st ++ [(Log, "Unbind Last.fm scrobbler")].
Proof.
  intros st.
  assert (Hst : ScrobbleService.boundScrobblers st = [0; 1]%nat) by reflexivity.
  split; [exact Hst|]. rewrite Hst.
  split; [compute_done|]. split; [|repeat split; reflexivity].
  intros s Hin.
  apply elem_of_cons in Hin as [->|Hin]; [discriminate|].
  apply elem_of_cons in Hin as [->|Hin]; [discriminate|].
  now apply elem_of_nil in Hin.
Qed.

(** ** Dispatch targets and song-info lookup *)

Section Targets.
Import BaseScrobbler ScrobbleService Props.
Variable heap : ref -> Scrobbler.
Variable registeredScrobblers : list ref.
Implicit Types (st : State) (schedule : list nat).

(** C5, as amended.  [sendNowPlaying] and [scrobble] call the scrobblers
    of the Bound Set; [toggleLove] calls the registered scrobblers that
    can love a song, bound or not, and, when their requests keep to the
    result protocol, resolves with one result for each of them;
    [getSongInfo] calls the registered scrobblers that can load song
    info. *)
Theorem dispatch_targets st songInfo flag schedule :
  let lovers :=
    List.filter (fun scrobbler => canLoveSong (heap scrobbler))
      registeredScrobblers in
  called (sendNowPlaying heap st songInfo schedule) = boundScrobblers st
  /\ called (scrobble heap st songInfo schedule) = boundScrobblers st
  /\ called (toggleLove heap registeredScrobblers st songInfo flag schedule)
     = lovers
  /\ (schedule ≡ₚ seq 0 (length lovers) ->
      (forall scrobbler, scrobbler ∈ lovers ->
         withinProtocol (heap scrobbler)
           (BaseScrobbler.toggleLove (heap scrobbler) songInfo flag) = true) ->
      settled (toggleLove heap registeredScrobblers st songInfo flag schedule)
      = Some (Fulfilled
                ((fun scrobbler =>
                    forwarded (BaseScrobbler.toggleLove (heap scrobbler) songInfo flag))
                 <$> lovers)))
  /\ called (getSongInfo heap registeredScrobblers st songInfo schedule)
     = List.filter (fun scrobbler => canLoadSongInfo (heap scrobbler))
         registeredScrobblers.
Proof.
  intros lovers. unfold sendNowPlaying, scrobble, toggleLove, getSongInfo.
  fold lovers. rewrite !sendToEach_called.
  split; [reflexivity|]. split; [reflexivity|]. split; [reflexivity|]. split.
  - intros Hperm Hprot.
    apply (sendToEach_settled heap
      (fun scrobbler => BaseScrobbler.toggleLove (heap scrobbler) songInfo flag));
      assumption.
  - now destruct (settleInOrder _ _ schedule _).
Qed.

(** C8.  In whatever order the lookups settle, [getSongInfo] resolves
    with one entry for each registered scrobbler that can load song info,
    in registration order: the song info the scrobbler answered, or
    [null] when its lookup was rejected.  The call is never rejected,
    under any schedule. *)
Theorem getSongInfo_faults_become_null st songInfo schedule :
  let scrobblers :=
    List.filter (fun scrobbler => canLoadSongInfo (heap scrobbler))
      registeredScrobblers in
  (schedule ≡ₚ seq 0 (length scrobblers) ->
   exists results,
     settled (getSongInfo heap registeredScrobblers st songInfo schedule)
     = Some (Fulfilled results)
     /\ length results = length scrobblers
     /\ results
        = (fun scrobbler =>
             songInfoOrNull (BaseScrobbler.getSongInfo (heap scrobbler) songInfo))
          <$> scrobblers)
  /\ (forall e,
        settled (getSongInfo heap registeredScrobblers st songInfo schedule)
        <> Some (Rejected e)).
Proof.
  intros scrobblers. unfold getSongInfo. fold scrobblers.
  set (handler := fun (st : State) (_ : nat) (scrobbler : ref) =>
         match BaseScrobbler.getSongInfo (heap scrobbler) songInfo with
         | Fulfilled v => (st, Some (Fulfilled v))
         | Rejected _ =>
             (write Warn ("Unable to get song info from " +:+ label heap scrobbler) st,
              Some (Fulfilled (E := Value) VNull))
         end).
  set (st0 := write Log _ st).
  pose proof (settleInOrder_fulfilled handler scrobblers
    (fun _ scrobbler =>
       songInfoOrNull (BaseScrobbler.getSongInfo (heap scrobbler) songInfo))
    schedule st0) as Hev.
  destruct (settleInOrder handler scrobblers schedule st0) as [st' events].
  simpl in *. rewrite Hev.
  - split.
    + intros Hperm. eexists. split; [|split; [|reflexivity]].
      * rewrite all_fulfilled by exact Hperm. do 2 f_equal.
        apply (imap_const (fun scrobbler =>
          songInfoOrNull (BaseScrobbler.getSongInfo (heap scrobbler) songInfo))).
      * now rewrite length_fmap.
    + intros e. unfold JS.all. rewrite firstRejection_fulfilled.
      now destruct (mapM _ _).
  - intros s k t _. unfold handler.
    now destruct (BaseScrobbler.getSongInfo (heap t) songInfo).
Qed.

End Targets.

(** C5 as stated fails: Last.fm is registered and not bound, and
    [toggleLove] calls it. *)
Lemma toggleLove_calls_unbound_counterexample :
  let c := ScrobbleService.toggleLove Scenario.heap [0; 1]%nat
             (Scenario.bound [1]%nat) Scenario.song true [0; 1]%nat in
  (0%nat ∈ [0; 1]%nat)
  /\ (0%nat ∉ ScrobbleService.boundScrobblers (Scenario.bound [1]%nat))
  /\ (0%nat ∈ ScrobbleService.called c)
  /\ ScrobbleService.settled c
     = Some (Fulfilled [Scenario.errorAuth; Scenario.ok]).
Proof.
  intros c. split; [compute_done|]. split; [compute_done|].
  split; [|reflexivity].
  assert (Hcalled : ScrobbleService.called c = [0; 1]%nat) by reflexivity.
  rewrite Hcalled. compute_done.
Qed.

(** C5 at work: only GNU FM is bound, and it cannot love a song; the
    love request goes to Last.fm and Libre.fm, which are registered. *)
Lemma dispatch_targets_witness :
  let c := ScrobbleService.toggleLove Scenario.heap [0; 1; 3]%nat
             (Scenario.bound [3]%nat) Scenario.song true [1; 0]%nat in
  ScrobbleService.called c = [0; 1]%nat
  /\ ScrobbleService.settled c = Some (Fulfilled [Scenario.errorAuth; Scenario.ok]).
Proof.
  intros c.
  destruct (dispatch_targets Scenario.heap [0; 1; 3]%nat (Scenario.bound [3]%nat)
              Scenario.song true [1; 0]%nat) as (_ & _ & Hcalled & Hsettled & _).
  split; [exact Hcalled|].
  unfold c. rewrite Hsettled; [reflexivity|compute_done|].
  intros scrobbler Hin. simpl in Hin.
  repeat (apply elem_of_cons in Hin as [->|Hin]; [reflexivity|]).
  now apply elem_of_nil in Hin.
Defined.

(** C8 at work: GNU FM and Last.fm reject their lookups, Libre.fm
    answers; ListenBrainz cannot load song info. *)
Lemma getSongInfo_faults_become_null_witness :
  ScrobbleService.settled
    (ScrobbleService.getSongInfo Scenario.heap [0; 1; 2; 3]%nat
       (Scenario.bound [1]%nat) Scenario.song [2; 0; 1]%nat)
  = Some (Fulfilled [VNull; Scenario.song; VNull]).
Proof.
  destruct (getSongInfo_faults_become_null Scenario.heap [0; 1; 2; 3]%nat
              (Scenario.bound [1]%nat) Scenario.song [2; 0; 1]%nat)
    as [Hall _].
  destruct Hall as (results & Hsettled & _ & Hresults); [compute_done|].
  rewrite Hsettled, Hresults. reflexivity.
Defined.

(** ** The batch chunker *)

Section Chunks.
Import BaseScrobbler.
Context {A : Type}.
Implicit Types (array : list A) (m fuel k : nat).

Lemma splitArrayToChunksFuel_length fuel array m :
  (0 < m)%nat -> (length array <= fuel)%nat ->
  length (splitArrayToChunksFuel fuel array m) = ((length array + m - 1) / m)%nat.
Proof.
  intros Hm. revert array.
  induction fuel as [|fuel IH]; intros array Hfuel.
  - destruct array; [|simpl in Hfuel; lia].
    simpl. symmetry. apply Nat.div_small. lia.
  - destruct array as [|x rest].
    { simpl. symmetry. apply Nat.div_small. lia. }
    change (splitArrayToChunksFuel (Datatypes.S fuel) (x :: rest) m)
      with (take m (x :: rest)
              :: splitArrayToChunksFuel fuel (drop m (x :: rest)) m).
    rewrite length_cons, IH by (rewrite length_drop; simpl in *; lia).
    rewrite length_drop. set (n := length (x :: rest)).
    assert (Hn : (0 < n)%nat) by (subst n; simpl; lia).
    destruct (le_lt_dec m n) as [Hle|Hlt].
    + replace (n + m - 1)%nat with ((n - m + m - 1) + 1 * m)%nat by lia.
      rewrite Nat.div_add by lia. lia.
    + replace (n - m + m - 1)%nat with (m - 1)%nat by lia.
      rewrite (Nat.div_small (m - 1) m) by lia.
      apply (Nat.div_unique (n + m - 1) m 1 (n - 1)); lia.
Qed.

Lemma splitArrayToChunksFuel_concat fuel array m :
  (0 < m)%nat -> (length array <= fuel)%nat ->
  concat (splitArrayToChunksFuel fuel array m) = array.
Proof.
  intros Hm. revert array.
  induction fuel as [|fuel IH]; intros array Hfuel.
  - destruct array; [reflexivity|simpl in Hfuel; lia].
  - destruct array as [|x rest]; [reflexivity|].
    change (splitArrayToChunksFuel (Datatypes.S fuel) (x :: rest) m)
      with (take m (x :: rest)
              :: splitArrayToChunksFuel fuel (drop m (x :: rest)) m).
    rewrite concat_cons, IH by (rewrite length_drop; simpl in *; lia).
    apply take_drop.
Qed.

Lemma splitArrayToChunksFuel_lookup fuel array m k :
  (0 < m)%nat -> (length array <= fuel)%nat ->
  splitArrayToChunksFuel fuel array m !! k
  = if decide (k * m < length array)%nat
    then Some (take m (drop (k * m) array))
    else None.
Proof.
  intros Hm. revert fuel array.
  induction k as [|k IH]; intros fuel array Hfuel.
  - destruct array as [|x rest].
    + destruct fuel; reflexivity.
    + destruct fuel; [simpl in Hfuel; lia|].
      rewrite decide_True by (simpl; lia). reflexivity.
  - destruct array as [|x rest].
    + rewrite decide_False by (simpl; lia). destruct fuel; reflexivity.
    + destruct fuel; [simpl in Hfuel; lia|].
      change (splitArrayToChunksFuel (Datatypes.S fuel) (x :: rest) m)
        with (take m (x :: rest)
                :: splitArrayToChunksFuel fuel (drop m (x :: rest)) m).
      rewrite lookup_cons_ne_0 by lia. simpl Nat.pred.
      rewrite IH by (rewrite length_drop; simpl in *; lia).
      rewrite length_drop, drop_drop.
      replace (m + k * m)%nat with (Datatypes.S k * m)%nat by lia.
      destruct (decide (k * m < length (x :: rest) - m)%nat);
        destruct (decide (Datatypes.S k * m < length (x :: rest))%nat);
        try reflexivity; lia.
Qed.

End Chunks.

Section SettleInvariants.
Context {S T A E : Type}.
Implicit Types (handler : S -> nat -> T -> S * option (Outcome A E)).
Implicit Types (targets : list T) (schedule : list nat).

Lemma settleInOrder_state_unchanged handler targets schedule s :
  (forall s k t, targets !! k = Some t -> (handler s k t).1 = s) ->
  (settleInOrder handler targets schedule s).1 = s.
Proof.
  intros Hsame. induction schedule as [|k rest IH]; simpl; [reflexivity|].
  destruct (targets !! k) as [t|] eqn:Hk; [|exact IH].
  specialize (Hsame s k t Hk). destruct (handler s k t) as [s1 o].
  simpl in Hsame. subst s1.
  destruct (settleInOrder handler targets rest s) as [s2 events]. exact IH.
Qed.

Lemma settleInOrder_no_rejection handler targets schedule s :
  (forall s k t e, targets !! k = Some t ->
                   (handler s k t).2 <> Some (Rejected e)) ->
  firstRejection (settleInOrder handler targets schedule s).2 = None.
Proof.
  intros Hnot. revert s.
  induction schedule as [|k rest IH]; intros s; simpl; [reflexivity|].
  destruct (targets !! k) as [t|] eqn:Hk; [|apply IH].
  pose proof (fun e => Hnot s k t e Hk) as Hk'.
  destruct (handler s k t) as [s1 o]. specialize (IH s1).
  destruct (settleInOrder handler targets rest s1) as [s2 events].
  simpl in *. destruct o as [[v|e]|]; simpl; [exact IH| |exact IH].
  now destruct (Hk' e).
Qed.

Lemma all_no_rejection (n : nat) (events : list (nat * Outcome A E)) e :
  firstRejection events = None -> JS.all n events <> Some (Rejected e).
Proof.
  intros Hnone. unfold JS.all. rewrite Hnone. now destruct (mapM _ _).
Qed.

End SettleInvariants.

Section Batch.
Import BaseScrobbler Props.
Variable this : Scrobbler.
Variable songInfoArray : list Song.
Implicit Types (schedule : list nat) (results : list Z).

Lemma keepsBatchContract_lookup k chunk name message :
  keepsBatchContract this songInfoArray = true ->
  chunksOf this songInfoArray !! k = Some chunk ->
  scrobbleBatchWithLimit this k chunk <> Rejected (Thrown name message).
Proof.
  unfold keepsBatchContract. intros Hall Hk Hthrown.
  rewrite forallb_forall in Hall.
  specialize (Hall (match scrobbleBatchWithLimit this k chunk with
                    | Rejected (Thrown _ _) => false
                    | _ => true
                    end)).
  rewrite Hthrown in Hall. simpl in Hall.
  assert (Hfalse : false = true); [|discriminate Hfalse].
  apply Hall, list_elem_of_In, list_elem_of_lookup. exists k.
  rewrite list_lookup_imap, Hk. simpl. now rewrite Hthrown.
Qed.

(** The handlers push the failed indices of each chunk, remapped, in the
    order in which the chunk requests settle. *)
Lemma settled_chunks_results schedule results :
  (settleInOrder (chunkRequest this) (chunksOf this songInfoArray) schedule results).1
  = results ++ (schedule ≫= globalFailures this songInfoArray).
Proof.
  revert results.
  induction schedule as [|k rest IH]; intros results; simpl.
  - now rewrite app_nil_r.
  - unfold globalFailures at 1, localFailures.
    destruct (chunksOf this songInfoArray !! k) as [chunk|] eqn:Hk; simpl;
      [|apply IH].
    unfold chunkRequest at 1, onChunkSettled.
    destruct (scrobbleBatchWithLimit this k chunk) as [v|[songIndices|name message]];
      simpl.
    + specialize (IH results).
      destruct (settleInOrder (chunkRequest this) _ rest results). exact IH.
    + specialize (IH (results
        ++ map (fun songIndex =>
                  songIndex + Z.of_nat k * getMaxTrackCountToScrobble this)
             songIndices)).
      destruct (settleInOrder (chunkRequest this) _ rest _). simpl in *. rewrite IH.
      rewrite <- app_assoc. do 2 f_equal.
      apply map_ext. intros i. apply Z.add_comm.
    + specialize (IH results).
      destruct (settleInOrder (chunkRequest this) _ rest results). exact IH.
Qed.

Lemma scrobbleBatch_fulfilled schedule :
  schedule ≡ₚ seq 0 (length (chunksOf this songInfoArray)) ->
  keepsBatchContract this songInfoArray = true ->
  scrobbleBatch this songInfoArray schedule
  = Some (Fulfilled (schedule ≫= globalFailures this songInfoArray)).
Proof.
  intros Hperm Hkeeps. unfold scrobbleBatch.
  fold (chunksOf this songInfoArray).
  pose proof (settled_chunks_results schedule []) as Hres.
  pose proof (settleInOrder_fulfilled (chunkRequest this) (chunksOf this songInfoArray)
    (fun k chunk => match scrobbleBatchWithLimit this k chunk with
                    | Fulfilled v => v
                    | Rejected _ => VUndefined
                    end) schedule []) as Hev.
  destruct (settleInOrder (chunkRequest this) _ schedule []) as [results events].
  simpl in *. subst results. rewrite Hev.
  - now rewrite all_fulfilled by exact Hperm.
  - intros s k chunk Hk. unfold chunkRequest, onChunkSettled.
    pose proof (fun name message =>
      keepsBatchContract_lookup k chunk name message Hkeeps Hk) as Hnot.
    destruct (scrobbleBatchWithLimit this k chunk) as [v|[l|name message]];
      try reflexivity.
    now destruct (Hnot name message).
Qed.

(** Whenever the call fulfils, it is with the array the handlers filled. *)
Lemma scrobbleBatch_fulfilled_results schedule results :
  scrobbleBatch this songInfoArray schedule = Some (Fulfilled results) ->
  results = schedule ≫= globalFailures this songInfoArray.
Proof.
  unfold scrobbleBatch. fold (chunksOf this songInfoArray).
  pose proof (settled_chunks_results schedule []) as Hres.
  destruct (settleInOrder (chunkRequest this) _ schedule []) as [filled events].
  simpl in *. subst filled.
  destruct (JS.all _ events) as [[v|e]|]; try discriminate.
  now intros [= <-].
Qed.

Lemma scrobbleBatch_not_rejected schedule e :
  keepsBatchContract this songInfoArray = true ->
  scrobbleBatch this songInfoArray schedule <> Some (Rejected e).
Proof.
  intros Hkeeps. unfold scrobbleBatch.
  fold (chunksOf this songInfoArray).
  pose proof (settleInOrder_no_rejection (chunkRequest this)
                (chunksOf this songInfoArray) schedule []) as Hnone.
  destruct (settleInOrder (chunkRequest this) _ schedule []) as [results events].
  simpl in *.
  assert (Hall : forall e', JS.all (length (chunksOf this songInfoArray)) events
                            <> Some (Rejected e')).
  { intros e'. apply all_no_rejection, Hnone.
    intros s k chunk e'' Hk. unfold chunkRequest, onChunkSettled.
    pose proof (fun name message =>
      keepsBatchContract_lookup k chunk name message Hkeeps Hk) as Hnot.
    destruct (scrobbleBatchWithLimit this k chunk) as [v|[l|name message]];
      try discriminate.
    now destruct (Hnot name message). }
  destruct (JS.all _ events) as [[v|e']|]; try discriminate.
  now destruct (Hall e').
Qed.

End Batch.

(** ** The chunking law *)

Section ChunkingLaw.
Import BaseScrobbler Props.
Variable this : Scrobbler.
Variable songInfoArray : list Song.
Implicit Types (schedule : list nat).

Lemma chunksOf_length :
  0 < getMaxTrackCountToScrobble this ->
  Z.of_nat (length (chunksOf this songInfoArray))
  = (Z.of_nat (length songInfoArray) + getMaxTrackCountToScrobble this - 1)
    / getMaxTrackCountToScrobble this.
Proof.
  intros HM. unfold chunksOf, splitArrayToChunks.
  rewrite splitArrayToChunksFuel_length by lia.
  rewrite Nat2Z.inj_div. f_equal; lia.
Qed.

Lemma chunksOf_lookup k chunk :
  0 < getMaxTrackCountToScrobble this ->
  chunksOf this songInfoArray !! k = Some chunk ->
  (k * Z.to_nat (getMaxTrackCountToScrobble this) < length songInfoArray)%nat
  /\ chunk = take (Z.to_nat (getMaxTrackCountToScrobble this))
               (drop (k * Z.to_nat (getMaxTrackCountToScrobble this)) songInfoArray).
Proof.
  intros HM. unfold chunksOf, splitArrayToChunks.
  rewrite splitArrayToChunksFuel_lookup by lia.
  destruct (decide _) as [Hlt|]; [|discriminate].
  intros [= <-]. split; [exact Hlt|reflexivity].
Qed.

Lemma elem_of_globalFailures_bind schedule g :
  schedule ≡ₚ seq 0 (length (chunksOf this songInfoArray)) ->
  g ∈ (schedule ≫= globalFailures this songInfoArray)
  <-> exists (k : nat) (i : Z),
        (k < length (chunksOf this songInfoArray))%nat
        /\ i ∈ localFailures this songInfoArray k
        /\ g = Z.of_nat k * getMaxTrackCountToScrobble this + i.
Proof.
  intros Hperm. rewrite list_elem_of_bind. unfold globalFailures. split.
  - intros (k & Hg & Hk). rewrite Hperm in Hk. apply elem_of_seq in Hk.
    apply list_elem_of_In, in_map_iff in Hg as (i & <- & Hi).
    exists k, i. split; [lia|]. split; [now apply list_elem_of_In|reflexivity].
  - intros (k & i & Hk & Hi & ->). exists k. split.
    + apply list_elem_of_In, in_map_iff. exists i.
      split; [reflexivity|now apply list_elem_of_In].
    + rewrite Hperm. apply elem_of_seq. lia.
Qed.

(** C4.  For a scrobbler with [maxChunkSize] M > 0 and a batch of N
    songs: the batch is cut into ceil(N/M) chunks; chunk k is the M songs
    from position k*M on, so the chunks are contiguous, keep the order and
    join up to the batch; every chunk but the last has M songs and the
    last between 1 and M.  In whatever order the chunk requests settle,
    the failure list the call fulfils with is made of k*M + i for every
    index i that the request for chunk k was rejected with, and of nothing
    else, chunk by chunk in completion order; and the call does fulfil
    when every chunk request fulfils or rejects with a list of indices. *)
Theorem chunking_law schedule :
  let M := getMaxTrackCountToScrobble this in
  let chunks := chunksOf this songInfoArray in
  0 < M ->
  (Z.of_nat (length chunks) = (Z.of_nat (length songInfoArray) + M - 1) / M
   /\ concat chunks = songInfoArray
   /\ (forall k chunk,
         chunks !! k = Some chunk ->
         chunk = take (Z.to_nat M) (drop (k * Z.to_nat M) songInfoArray)
         /\ (0 < length chunk <= Z.to_nat M)%nat
         /\ (Datatypes.S k < length chunks -> length chunk = Z.to_nat M)%nat))
  /\ (schedule ≡ₚ seq 0 (length chunks) ->
      (forall results,
         scrobbleBatch this songInfoArray schedule = Some (Fulfilled results) ->
         results = schedule ≫= globalFailures this songInfoArray
         /\ (forall g,
               g ∈ results <->
               exists (k : nat) (i : Z),
                 (k < length chunks)%nat
                 /\ i ∈ localFailures this songInfoArray k
                 /\ g = Z.of_nat k * M + i))
      /\ (keepsBatchContract this songInfoArray = true ->
          exists results,
            scrobbleBatch this songInfoArray schedule = Some (Fulfilled results))).
Proof.
  intros M chunks HM. split; [split; [|split]|].
  - now apply chunksOf_length.
  - unfold chunks, chunksOf, splitArrayToChunks.
    apply splitArrayToChunksFuel_concat; lia.
  - intros k chunk Hk.
    destruct (chunksOf_lookup k chunk HM Hk) as [Hlt ->].
    split; [reflexivity|]. fold M in Hlt |- *.
    rewrite length_take, length_drop. split; [lia|].
    intros Hnext.
    destruct (lookup_lt_is_Some_2 chunks (Datatypes.S k) Hnext) as [next Hn].
    destruct (chunksOf_lookup _ _ HM Hn) as [Hlt' _]. fold M in Hlt'. lia.
  - intros Hperm. split.
    + intros results Hsettled.
      apply scrobbleBatch_fulfilled_results in Hsettled. subst results.
      split; [reflexivity|]. intros g. now apply elem_of_globalFailures_bind.
    + intros Hkeeps. eexists. now apply scrobbleBatch_fulfilled.
Qed.

End ChunkingLaw.

(** C4 at work: seven songs for ListenBrainz, three to a chunk; the second
    chunk, which settles last, fails at its index 1, song 4 of the batch. *)
Lemma chunking_law_witness :
  length (Props.chunksOf (Scenario.heap 2%nat) Scenario.batch) = 3%nat
  /\ BaseScrobbler.scrobbleBatch (Scenario.heap 2%nat) Scenario.batch [2; 0; 1]%nat
     = Some (Fulfilled [4]).
Proof.
  destruct (chunking_law (Scenario.heap 2%nat) Scenario.batch [2; 0; 1]%nat)
    as [(Hcount & _) Hremap]; [reflexivity|].
  split; [apply Nat2Z.inj; rewrite Hcount; reflexivity|].
  destruct Hremap as [Hresults Hfulfils]; [compute_done|].
  destruct (Hfulfils eq_refl) as [results Hsettled].
  rewrite Hsettled. destruct (Hresults results Hsettled) as [-> _]. reflexivity.
Defined.

(** ** Batch dispatch *)

Section BatchDispatch.
Import BaseScrobbler ScrobbleService Props.
Variable heap : ref -> Scrobbler.
Implicit Types (st : State) (schedule : list nat) (chunkSchedules : nat -> list nat).
Implicit Types (songInfoArray : list Song) (errored : gmap string Value).

(** The promise of a batch request, with its rejection handler attached,
    never rejects. *)
Lemma batchRequest_not_rejected songInfoArray chunkSchedules errored i scrobbler e :
  (batchRequest heap songInfoArray chunkSchedules errored i scrobbler).2
  <> Some (Rejected e).
Proof.
  unfold batchRequest.
  now destruct (BaseScrobbler.scrobbleBatch _ _ _) as [[v|e']|].
Qed.

Lemma batchRequest_handler_idle songInfoArray chunkSchedules errored i scrobbler :
  keepsBatchContract (heap scrobbler) songInfoArray = true ->
  (batchRequest heap songInfoArray chunkSchedules errored i scrobbler).1 = errored.
Proof.
  intros Hkeeps. unfold batchRequest.
  pose proof (fun e => scrobbleBatch_not_rejected (heap scrobbler) songInfoArray
                         (chunkSchedules i) e Hkeeps) as Hnot.
  destruct (BaseScrobbler.scrobbleBatch _ _ _) as [[v|e']|]; try reflexivity.
  now destruct (Hnot e').
Qed.

(** The service's [scrobbleBatch] is never rejected, whatever the bound
    scrobblers report and in whatever order the requests settle. *)
Lemma scrobbleBatch_never_rejected st songInfoArray chunkSchedules schedule e :
  settled (call (scrobbleBatch heap st songInfoArray chunkSchedules schedule))
  <> Some (Rejected e).
Proof.
  unfold scrobbleBatch.
  set (scrobblers := boundScrobblers (write Log _ st)).
  pose proof (settleInOrder_no_rejection
                (batchRequest heap songInfoArray chunkSchedules)
                scrobblers schedule ∅) as Hnone.
  destruct (settleInOrder _ scrobblers schedule ∅) as [errored events].
  simpl in *.
  assert (Hall : forall e', JS.all (length scrobblers) events <> Some (Rejected e')).
  { intros e'. apply all_no_rejection, Hnone.
    intros s k t e'' _. apply batchRequest_not_rejected. }
  destruct (JS.all _ events) as [[v|e']|]; try discriminate.
  now destruct (Hall e').
Qed.

Lemma scrobbleBatch_handlers_idle st songInfoArray chunkSchedules schedule :
  (forall scrobbler, scrobbler ∈ boundScrobblers st ->
     keepsBatchContract (heap scrobbler) songInfoArray = true) ->
  erroredScrobbles (scrobbleBatch heap st songInfoArray chunkSchedules schedule) = ∅.
Proof.
  intros Hkeeps. unfold scrobbleBatch.
  set (scrobblers := boundScrobblers (write Log _ st)).
  pose proof (settleInOrder_state_unchanged
                (batchRequest heap songInfoArray chunkSchedules)
                scrobblers schedule ∅) as Hsame.
  destruct (settleInOrder _ scrobblers schedule ∅) as [errored events].
  simpl in *. apply Hsame.
  intros s k scrobbler Hk. apply batchRequest_handler_idle, Hkeeps.
  eapply list_elem_of_lookup_2, Hk.
Qed.

End BatchDispatch.

(** C9, as amended.  For a scrobbler whose chunk requests each fulfil or
    reject with a list of indices, and for every batch: [scrobbleBatch]
    is never rejected, under any schedule; once every chunk request has
    settled it fulfils, with the remapped failed indices, which are none
    when every chunk succeeded.  Hence, when every bound scrobbler is such a one,
    the rejection handler that the service's [scrobbleBatch] attaches is
    never run: [erroredScrobbles] stays empty. *)
Theorem batch_chunker_always_fulfils :
  (forall this songInfoArray schedule,
     Props.keepsBatchContract this songInfoArray = true ->
     (forall e,
        BaseScrobbler.scrobbleBatch this songInfoArray schedule <> Some (Rejected e))
     /\ (schedule ≡ₚ seq 0 (length (Props.chunksOf this songInfoArray)) ->
         exists results,
           BaseScrobbler.scrobbleBatch this songInfoArray schedule
           = Some (Fulfilled results)
           /\ results = schedule ≫= Props.globalFailures this songInfoArray
           /\ ((forall k, Props.localFailures this songInfoArray k = []) ->
               results = [])))
  /\ (forall heap st songInfoArray chunkSchedules schedule,
        (forall scrobbler, scrobbler ∈ ScrobbleService.boundScrobblers st ->
           Props.keepsBatchContract (heap scrobbler) songInfoArray = true) ->
        ScrobbleService.erroredScrobbles
          (ScrobbleService.scrobbleBatch heap st songInfoArray chunkSchedules schedule)
        = ∅).
Proof.
  split.
  - intros this songInfoArray schedule Hkeeps. split.
    + intros e. now apply scrobbleBatch_not_rejected.
    + intros Hperm. eexists. split; [|split; [reflexivity|]].
      * now apply scrobbleBatch_fulfilled.
      * intros Hnone. clear Hperm.
        induction schedule as [|k rest IH]; [reflexivity|].
        simpl. unfold Props.globalFailures at 1. rewrite Hnone. exact IH.
  - intros heap st songInfoArray chunkSchedules schedule Hkeeps.
    now apply scrobbleBatch_handlers_idle.
Qed.

(** C9 at work: ListenBrainz reports song 4 through the value its batch
    promise fulfils with, and the service's rejection handler stays idle. *)
Lemma batch_chunker_always_fulfils_witness :
  BaseScrobbler.scrobbleBatch (Scenario.heap 2%nat) Scenario.batch [1; 2; 0]%nat
  = Some (Fulfilled [4])
  /\ ScrobbleService.erroredScrobbles
       (ScrobbleService.scrobbleBatch Scenario.heap (Scenario.bound [1; 2]%nat)
          Scenario.batch (fun _ => [0; 1; 2]%nat) [1; 0]%nat)
     = ∅.
Proof.
  destruct batch_chunker_always_fulfils as [Hchunker Hservice]. split.
  - destruct (Hchunker (Scenario.heap 2%nat) Scenario.batch [1; 2; 0]%nat)
      as [_ Hfulfils]; [reflexivity|].
    destruct Hfulfils as (results & Hsettled & Hresults & _); [compute_done|].
    rewrite Hsettled, Hresults. reflexivity.
  - apply Hservice. intros scrobbler Hin. simpl in Hin.
    repeat (apply elem_of_cons in Hin as [->|Hin]; [reflexivity|]).
    now apply elem_of_nil in Hin.
Defined.

(** C9 as stated fails: a scrobbler that inherits the base
    [scrobbleBatchWithLimit] has its chunk request rejected with an
    [Error]; [for ... of] over that error throws in the chunk's rejection
    handler, [scrobbleBatch] of the scrobbler rejects, and the rejection
    handler of the service's [scrobbleBatch] runs and records the
    scrobbler in [erroredScrobbles]. *)
Lemma batch_chunker_counterexample :
  BaseScrobbler.scrobbleBatchWithLimit (Scenario.heap 7%nat) 0%nat Scenario.batch
  = Rejected (BaseScrobbler.Thrown "Error" "This function must be overridden!")
  /\ BaseScrobbler.scrobbleBatch (Scenario.heap 7%nat) Scenario.batch [0]%nat
     = Some (Rejected (VError "TypeError" "songIndices is not iterable"))
  /\ ~ (exists results,
          BaseScrobbler.scrobbleBatch (Scenario.heap 7%nat) Scenario.batch [0]%nat
          = Some (Fulfilled results))
  /\ ScrobbleService.erroredScrobbles
       (ScrobbleService.scrobbleBatch Scenario.heap (Scenario.bound [7]%nat)
          Scenario.batch (fun _ => [0]%nat) [0]%nat)
     !! "abstract"
     = Some (VError "TypeError" "songIndices is not iterable").
Proof.
  split; [reflexivity|]. split; [reflexivity|]. split.
  - intros (results & Hsettled). discriminate Hsettled.
  - reflexivity.
Qed.

(** Outside that contract: the base [scrobbleBatchWithLimit] throws an
    [Error], [for ... of] over it throws in turn, and the call rejects. *)
Example scrobbleBatch_thrown_chunk :
  BaseScrobbler.scrobbleBatch (Scenario.heap 7%nat) Scenario.batch [0]%nat
  = Some (Rejected (VError "TypeError" "songIndices is not iterable")).
Proof. reflexivity. Qed.

(** C2 fails on the code.  Libre.fm and ListenBrainz are bound and the
    batch has seven songs; ListenBrainz reports the failed index 4, and
    Libre.fm none.  The spec has the call fail with the error whose map
    lists ListenBrainz alone; the call resolves instead, with the arrays
    the scrobblers fulfilled with, and [erroredScrobbles] is empty. *)
Lemma scrobbleBatch_reports_no_partial_failure :
  let chunkSchedules := fun i : nat => match i with
                                       | 0%nat => [0]%nat
                                       | _ => [1; 2; 0]%nat
                                       end in
  let failed := fun scrobbler : ref =>
    match BaseScrobbler.scrobbleBatch (Scenario.heap scrobbler) Scenario.batch
            [0; 1; 2]%nat with
    | Some (Fulfilled indices) => indices
    | _ => []
    end in
  let c := ScrobbleService.scrobbleBatch Scenario.heap (Scenario.bound [1; 2]%nat)
             Scenario.batch chunkSchedules [1; 0]%nat in
  failed 1%nat = []
  /\ failed 2%nat = [4]
  /\ Props.specScrobbleBatch Scenario.heap [1; 2]%nat failed
     = Rejected
         {| ScrobbleBatchError.message := "Unable to scrobble songs";
            ScrobbleBatchError.errorData := {[ "listenbrainz"%string := [4] ]} |}
  /\ ScrobbleService.settled (ScrobbleService.call c)
     = Some (Fulfilled [Some []; Some [4]])
  /\ ScrobbleService.erroredScrobbles c = ∅.
Proof.
  intros chunkSchedules failed c.
  split; [reflexivity|]. split; [reflexivity|]. split; [reflexivity|].
  split; reflexivity.
Qed.

(** ** More on the service: lookup by id, the Bound Set across a dispatch *)

Section ServiceState.
Import BaseScrobbler ScrobbleService Props Further.
Variable heap : ref -> Scrobbler.
Implicit Types (st : State) (scrobbler : ref) (schedule : list nat).
Implicit Types (request : ref -> Outcome Value Value) (scrobblers : list ref).

(** [getScrobblerById] answers the first registered scrobbler with the
    id, and [null] exactly when no registered scrobbler has it. *)
Theorem getScrobblerById_first (registeredScrobblers : list ref) (scrobblerId : string) :
  match getScrobblerById heap registeredScrobblers scrobblerId with
  | Some scrobbler =>
      exists i,
        registeredScrobblers !! i = Some scrobbler
        /\ getId (heap scrobbler) = scrobblerId
        /\ (forall j s, (j < i)%nat -> registeredScrobblers !! j = Some s ->
                        getId (heap s) <> scrobblerId)
  | None =>
      forall s, s ∈ registeredScrobblers -> getId (heap s) <> scrobblerId
  end.
Proof.
  unfold getScrobblerById.
  induction registeredScrobblers as [|r rest IH]; simpl.
  - intros s Hs. now apply elem_of_nil in Hs.
  - destruct (String.eqb_spec (getId (heap r)) scrobblerId) as [Heq|Hne].
    + exists 0%nat. split; [reflexivity|]. split; [exact Heq|]. intros j s Hj. lia.
    + destruct (find _ rest) as [found|].
      * destruct IH as (i & Hi & Hid & Hfirst). exists (Datatypes.S i).
        split; [exact Hi|]. split; [exact Hid|].
        intros [|j] s Hj Hs; simpl in Hs.
        -- now injection Hs as <-.
        -- apply (Hfirst j s); [lia|exact Hs].
      * intros s Hs. apply elem_of_cons in Hs as [->|Hs]; [exact Hne|now apply IH].
Qed.

Lemma settleInOrder_state {S T A E : Type}
    (handler : S -> nat -> T -> S * option (Outcome A E))
    (targets : list T) schedule (s : S) :
  (settleInOrder handler targets schedule s).1
  = fold_left
      (fun s k => match targets !! k with
                  | Some t => (handler s k t).1
                  | None => s
                  end)
      schedule s.
Proof.
  revert s. induction schedule as [|k rest IH]; intros s; simpl; [reflexivity|].
  destruct (targets !! k) as [t|]; [|apply IH].
  destruct (handler s k t) as [s1 o]. specialize (IH s1).
  destruct (settleInOrder handler targets rest s1). exact IH.
Qed.

Lemma settleInOrder_nil {S T A E : Type}
    (handler : S -> nat -> T -> S * option (Outcome A E)) schedule (s : S) :
  settleInOrder handler [] schedule s = (s, []).
Proof. induction schedule as [|k rest IH]; simpl; [reflexivity|exact IH]. Qed.

(** What a settled request does to the array [boundScrobblers]. *)
Lemma forwardResult_bound request st scrobbler :
  boundScrobblers (forwardResult heap request st scrobbler).1
  = if unbinds heap request scrobbler
    then boundScrobblers (unbindScrobbler heap st scrobbler)
    else boundScrobblers st.
Proof.
  unfold forwardResult, unbinds, processErrorResult.
  destruct (request scrobbler) as [v|result]; simpl; [reflexivity|].
  destruct (strictEqualsString result ServiceCallResult.ERROR_OTHER) eqn:Hother;
    destruct (strictEqualsString result ServiceCallResult.ERROR_AUTH) eqn:Hauth;
    simpl; try reflexivity.
  - apply strictEqualsString_true in Hother, Hauth.
    rewrite Hother in Hauth. discriminate Hauth.
  - destruct (isReadyForGrantAccess (heap scrobbler)) as [[|]|]; reflexivity.
Qed.

Lemma forwardResult_sublist request st scrobbler :
  boundScrobblers (forwardResult heap request st scrobbler).1
    `sublist_of` boundScrobblers st.
Proof.
  rewrite forwardResult_bound.
  destruct (unbinds heap request scrobbler); [|reflexivity].
  apply unbindScrobbler_sublist.
Qed.

Lemma sendToEach_after request scrobblers schedule st :
  after (sendToEach heap request scrobblers schedule st)
  = fold_left
      (fun st k => match scrobblers !! k with
                   | Some scrobbler => (forwardResult heap request st scrobbler).1
                   | None => st
                   end)
      schedule st.
Proof.
  unfold sendToEach.
  pose proof (settleInOrder_state
    (fun st (_ : nat) scrobbler => forwardResult heap request st scrobbler)
    scrobblers schedule st) as Hstate.
  destruct (settleInOrder _ scrobblers schedule st) as [st' events].
  exact Hstate.
Qed.

Lemma sendToEach_sublist request scrobblers schedule st :
  boundScrobblers (after (sendToEach heap request scrobblers schedule st))
    `sublist_of` boundScrobblers st.
Proof.
  rewrite sendToEach_after. revert st.
  induction schedule as [|k rest IH]; intros st; simpl; [reflexivity|].
  etransitivity; [apply IH|].
  destruct (scrobblers !! k); [apply forwardResult_sublist|reflexivity].
Qed.

(** A dispatch never binds: whatever the requests answer and in whatever
    order they settle, also when the call itself is rejected,
    [sendNowPlaying], [scrobble] and [toggleLove] leave a Bound Set that
    is the one they found with some members removed, in the same order;
    no label comes to be shared. *)
Theorem dispatch_only_unbinds (registeredScrobblers : list ref) st songInfo flag schedule :
  boundScrobblers (after (sendNowPlaying heap st songInfo schedule))
    `sublist_of` boundScrobblers st
  /\ boundScrobblers (after (scrobble heap st songInfo schedule))
       `sublist_of` boundScrobblers st
  /\ boundScrobblers
       (after (toggleLove heap registeredScrobblers st songInfo flag schedule))
       `sublist_of` boundScrobblers st
  /\ (NoDup (labels heap (boundScrobblers st)) ->
      NoDup (labels heap
               (boundScrobblers (after (sendNowPlaying heap st songInfo schedule))))
      /\ NoDup (labels heap
                  (boundScrobblers (after (scrobble heap st songInfo schedule))))
      /\ NoDup (labels heap
                  (boundScrobblers
                     (after (toggleLove heap registeredScrobblers st songInfo
                               flag schedule))))).
Proof.
  assert (H1 : boundScrobblers (after (sendNowPlaying heap st songInfo schedule))
                 `sublist_of` boundScrobblers st).
  { unfold sendNowPlaying. etransitivity; [apply sendToEach_sublist|reflexivity]. }
  assert (H2 : boundScrobblers (after (scrobble heap st songInfo schedule))
                 `sublist_of` boundScrobblers st).
  { unfold scrobble. etransitivity; [apply sendToEach_sublist|reflexivity]. }
  assert (H3 : boundScrobblers
                 (after (toggleLove heap registeredScrobblers st songInfo flag schedule))
                 `sublist_of` boundScrobblers st).
  { unfold toggleLove. etransitivity; [apply sendToEach_sublist|reflexivity]. }
  split; [exact H1|]. split; [exact H2|]. split; [exact H3|].
  intros Hnd. unfold labels in *.
  repeat split; (eapply sublist_NoDup; [exact Hnd|]); now apply fmap_sublist.
Qed.

(** *** Which scrobblers a dispatch unbinds *)

Lemma filter_ne_id (array : list ref) scrobbler :
  scrobbler ∉ array ->
  List.filter (fun x => negb (Nat.eqb x scrobbler)) array = array.
Proof.
  induction array as [|y rest IH]; intros Hnot; simpl; [reflexivity|].
  apply not_elem_of_cons in Hnot as [Hne Hnot].
  destruct (Nat.eqb_spec y scrobbler); [congruence|]. simpl. now rewrite IH.
Qed.

Lemma delete_filter_ne (array : list ref) n scrobbler :
  NoDup array -> array !! n = Some scrobbler ->
  delete n array = List.filter (fun x => negb (Nat.eqb x scrobbler)) array.
Proof.
  intros Hnd Hn. rewrite delete_take_drop.
  rewrite <- (take_drop_middle array n scrobbler Hn) in Hnd.
  rewrite <- (take_drop_middle array n scrobbler Hn) at 3.
  apply NoDup_app in Hnd as (_ & Hdisj & Hnd).
  apply NoDup_cons in Hnd as [Hnot _].
  rewrite List.filter_app. simpl. rewrite Nat.eqb_refl. simpl.
  rewrite !filter_ne_id; [reflexivity|exact Hnot|].
  intros Hin. apply (Hdisj _ Hin). apply elem_of_cons. now left.
Qed.

Lemma filter_filter_andb {A : Type} (f g : A -> bool) (l : list A) :
  List.filter f (List.filter g l) = List.filter (fun x => g x && f x) l.
Proof.
  induction l as [|x l IH]; simpl; [reflexivity|].
  destruct (g x); simpl; [|exact IH]. destruct (f x); now rewrite IH.
Qed.

(** Among scrobblers with distinct labels, unbinding takes out the
    scrobbler itself and nothing else, bound or not. *)
Lemma unbindScrobbler_filter scrobblers st scrobbler :
  NoDup (labels heap scrobblers) ->
  (forall x, x ∈ boundScrobblers st -> x ∈ scrobblers) ->
  NoDup (boundScrobblers st) ->
  scrobbler ∈ scrobblers ->
  boundScrobblers (unbindScrobbler heap st scrobbler)
  = List.filter (fun x => negb (Nat.eqb x scrobbler)) (boundScrobblers st).
Proof.
  intros Hlabels Hsub Hnd Hin.
  destruct (decide (scrobbler ∈ boundScrobblers st)) as [Hb|Hb].
  - rewrite unbindScrobbler_bound, (isScrobblerInArray_self heap _ _ Hb).
    destruct (splice1_indexOf_found _ _ Hb) as (n & Hn & ->).
    now apply delete_filter_ne.
  - rewrite unbindScrobbler_bound, filter_ne_id by exact Hb.
    destruct (isScrobblerInArray heap scrobbler (boundScrobblers st)) eqn:Hlabel;
      [|reflexivity].
    apply isScrobblerInArray_true in Hlabel as (s & Hs & Heq).
    exfalso. apply Hb.
    now rewrite <- (labels_NoDup_inj heap scrobblers s scrobbler Hlabels
                      (Hsub _ Hs) Hin Heq).
Qed.

Lemma filter_all {A : Type} (f : A -> bool) (l : list A) :
  (forall x, f x = true) -> List.filter f l = l.
Proof.
  intros Hall. induction l as [|x l IH]; simpl; [reflexivity|].
  now rewrite Hall, IH.
Qed.

Lemma settled_requests_bound request scrobblers schedule st :
  NoDup (labels heap scrobblers) ->
  (forall x, x ∈ boundScrobblers st -> x ∈ scrobblers) ->
  NoDup (boundScrobblers st) ->
  boundScrobblers
    (fold_left
       (fun st k => match scrobblers !! k with
                    | Some scrobbler => (forwardResult heap request st scrobbler).1
                    | None => st
                    end)
       schedule st)
  = List.filter (fun x => negb (unboundBy heap request scrobblers schedule x))
      (boundScrobblers st).
Proof.
  intros Hlabels. revert st.
  induction schedule as [|k rest IH]; intros st Hsub Hnd.
  - simpl. symmetry. now apply filter_all.
  - unfold unboundBy. simpl.
    destruct (scrobblers !! k) as [scrobbler|] eqn:Hk; [|now apply IH].
    set (st1 := (forwardResult heap request st scrobbler).1).
    assert (Hstep : boundScrobblers st1
                    = List.filter
                        (fun x => negb (Nat.eqb scrobbler x
                                        && unbinds heap request scrobbler))
                        (boundScrobblers st)).
    { unfold st1. rewrite forwardResult_bound.
      destruct (unbinds heap request scrobbler).
      - rewrite (unbindScrobbler_filter scrobblers) by
          (try assumption; eapply list_elem_of_lookup_2, Hk).
        apply filter_ext. intros x. now rewrite andb_true_r, Nat.eqb_sym.
      - symmetry. apply filter_all. intros x. now rewrite andb_false_r. }
    rewrite IH.
    + rewrite Hstep, filter_filter_andb. apply filter_ext. intros x.
      now rewrite negb_orb.
    + intros x Hx. rewrite Hstep in Hx.
      apply list_elem_of_In, filter_In in Hx as [Hx _].
      now apply Hsub, list_elem_of_In.
    + rewrite Hstep. now apply NoDup_ListNoDup, List.NoDup_filter, NoDup_ListNoDup.
Qed.

Lemma unboundBy_all request scrobblers schedule x :
  schedule ≡ₚ seq 0 (length scrobblers) -> x ∈ scrobblers ->
  unboundBy heap request scrobblers schedule x = unbinds heap request x.
Proof.
  intros Hperm Hx. apply eq_true_iff_eq. unfold unboundBy.
  rewrite existsb_exists. split.
  - intros (k & _ & Hk). cbv beta in Hk.
    destruct (scrobblers !! k) as [r|]; [|discriminate].
    apply andb_true_iff in Hk as [Heq Hk]. apply Nat.eqb_eq in Heq. now subst r.
  - intros Hu. apply list_elem_of_lookup_1 in Hx as [k Hk]. exists k. split.
    + apply list_elem_of_In. rewrite Hperm. apply elem_of_seq.
      apply lookup_lt_Some in Hk. lia.
    + cbv beta. unfold ref in *. now rewrite Hk, Nat.eqb_refl, Hu.
Qed.

Lemma sendToEach_bound request schedule st :
  NoDup (labels heap (boundScrobblers st)) ->
  schedule ≡ₚ seq 0 (length (boundScrobblers st)) ->
  boundScrobblers (after (sendToEach heap request (boundScrobblers st) schedule st))
  = List.filter (fun x => negb (unbinds heap request x)) (boundScrobblers st).
Proof.
  intros Hlabels Hperm. rewrite sendToEach_after.
  rewrite settled_requests_bound;
    [|exact Hlabels|now intros x Hx|exact (labels_NoDup heap _ Hlabels)].
  apply filter_ext_in. intros x Hx. f_equal.
  apply unboundBy_all; [exact Hperm|now apply list_elem_of_In].
Qed.

(** Auth-driven unbinding.  On a Bound Set without shared labels, and in
    whatever order the requests settle, [sendNowPlaying] and [scrobble]
    leave bound exactly the scrobblers whose request was not rejected
    with [ERROR_AUTH] while the scrobbler was not ready for grant access,
    in their former order; this also when the call itself is rejected. *)
Theorem dispatch_unbinds_auth_failures st songInfo schedule :
  NoDup (labels heap (boundScrobblers st)) ->
  schedule ≡ₚ seq 0 (length (boundScrobblers st)) ->
  boundScrobblers (after (sendNowPlaying heap st songInfo schedule))
  = List.filter
      (fun x => negb (unbinds heap
                        (fun s => BaseScrobbler.sendNowPlaying (heap s) songInfo) x))
      (boundScrobblers st)
  /\ boundScrobblers (after (scrobble heap st songInfo schedule))
     = List.filter
         (fun x => negb (unbinds heap
                           (fun s => BaseScrobbler.scrobble (heap s) songInfo) x))
         (boundScrobblers st).
Proof.
  intros Hlabels Hperm. split.
  - unfold sendNowPlaying.
    apply (sendToEach_bound
             (fun s => BaseScrobbler.sendNowPlaying (heap s) songInfo) schedule
             (write Log _ st)); assumption.
  - unfold scrobble.
    apply (sendToEach_bound
             (fun s => BaseScrobbler.scrobble (heap s) songInfo) schedule
             (write Log _ st)); assumption.
Qed.

End ServiceState.

(** At work: Last.fm is rejected with [ERROR_AUTH] and leaves; GNU FM,
    rejected with [ERROR_OTHER], and Libre.fm stay. *)
Lemma dispatch_unbinds_auth_failures_witness :
  ScrobbleService.boundScrobblers
    (ScrobbleService.after
       (ScrobbleService.scrobble Scenario.heap (Scenario.bound [0; 1; 3]%nat)
          Scenario.song [2; 0; 1]%nat))
  = [1; 3]%nat.
Proof.
  destruct (dispatch_unbinds_auth_failures Scenario.heap
              (Scenario.bound [0; 1; 3]%nat) Scenario.song [2; 0; 1]%nat)
    as [_ Hscrobble]; [compute_done|compute_done|].
  rewrite Hscrobble. reflexivity.
Defined.

(** At work: a label shared in the Bound Set is not produced by a love
    request that unbinds Last.fm. *)
Lemma dispatch_only_unbinds_witness :
  NoDup (Props.labels Scenario.heap
           (ScrobbleService.boundScrobblers
              (ScrobbleService.after
                 (ScrobbleService.toggleLove Scenario.heap [0; 1]%nat
                    (Scenario.bound [0; 1]%nat) Scenario.song true [1; 0]%nat)))).
Proof.
  destruct (dispatch_only_unbinds Scenario.heap [0; 1]%nat
              (Scenario.bound [0; 1]%nat) Scenario.song true [1; 0]%nat)
    as (_ & _ & _ & Hlabels).
  destruct Hlabels as (_ & _ & Hlove); [compute_done|exact Hlove].
Defined.

(** ** More on the service: empty dispatch, batch results, bind and unbind *)

Section ServiceMore.
Import BaseScrobbler ScrobbleService Props Further.
Variable heap : ref -> Scrobbler.
Implicit Types (st : State) (scrobbler : ref) (schedule : list nat).

Lemma settleInOrder_preserves {S T A E B : Type} (f : S -> B)
    (handler : S -> nat -> T -> S * option (Outcome A E))
    (targets : list T) schedule (s : S) :
  (forall s k t, f (handler s k t).1 = f s) ->
  f (settleInOrder handler targets schedule s).1 = f s.
Proof.
  intros Hsame. rewrite settleInOrder_state. revert s.
  induction schedule as [|k rest IH]; intros s; simpl; [reflexivity|].
  rewrite IH. destruct (targets !! k); [apply Hsame|reflexivity].
Qed.

Lemma filter_none {A : Type} (f : A -> bool) (l : list A) :
  (forall x, x ∈ l -> f x = false) -> List.filter f l = [].
Proof.
  induction l as [|x l IH]; intros Hnone; simpl; [reflexivity|].
  rewrite (Hnone x) by (apply elem_of_cons; now left).
  apply IH. intros y Hy. apply Hnone, elem_of_cons. now right.
Qed.

Lemma sendToEach_nobody (request : ref -> Outcome Value Value) schedule st :
  sendToEach heap request [] schedule st
  = {| called := []; after := st; settled := Some (Fulfilled []) |}.
Proof. unfold sendToEach. now rewrite settleInOrder_nil. Qed.

(** With nobody to ask, a call asks nobody and resolves at once with the
    empty array, under any schedule: [sendNowPlaying], [scrobble] and
    [scrobbleBatch] on an empty Bound Set, [toggleLove] when no
    registered scrobbler can love a song, [getSongInfo] when none can
    load song info.  The Bound Set stays as it is. *)
Theorem dispatch_to_nobody (registeredScrobblers : list ref) st songInfo
    songInfoArray flag chunkSchedules schedule :
  (boundScrobblers st = [] ->
   settled (sendNowPlaying heap st songInfo schedule) = Some (Fulfilled [])
   /\ settled (scrobble heap st songInfo schedule) = Some (Fulfilled [])
   /\ settled (call (scrobbleBatch heap st songInfoArray chunkSchedules schedule))
      = Some (Fulfilled [])
   /\ boundScrobblers (after (sendNowPlaying heap st songInfo schedule)) = []
   /\ boundScrobblers (after (scrobble heap st songInfo schedule)) = []
   /\ called (sendNowPlaying heap st songInfo schedule) = []
   /\ called (scrobble heap st songInfo schedule) = []
   /\ called (call (scrobbleBatch heap st songInfoArray chunkSchedules schedule))
      = []
   /\ boundScrobblers
        (after (call (scrobbleBatch heap st songInfoArray chunkSchedules schedule)))
      = []
   /\ erroredScrobbles (scrobbleBatch heap st songInfoArray chunkSchedules schedule)
      = ∅)
  /\ ((forall s, s ∈ registeredScrobblers -> canLoveSong (heap s) = false) ->
      called (toggleLove heap registeredScrobblers st songInfo flag schedule) = []
      /\ settled (toggleLove heap registeredScrobblers st songInfo flag schedule)
         = Some (Fulfilled [])
      /\ boundScrobblers
           (after (toggleLove heap registeredScrobblers st songInfo flag schedule))
         = boundScrobblers st)
  /\ ((forall s, s ∈ registeredScrobblers -> canLoadSongInfo (heap s) = false) ->
      called (getSongInfo heap registeredScrobblers st songInfo schedule) = []
      /\ settled (getSongInfo heap registeredScrobblers st songInfo schedule)
         = Some (Fulfilled [])
      /\ boundScrobblers
           (after (getSongInfo heap registeredScrobblers st songInfo schedule))
         = boundScrobblers st).
Proof.
  split; [|split].
  - intros Hempty.
    unfold sendNowPlaying, scrobble, scrobbleBatch. simpl.
    rewrite Hempty, !sendToEach_nobody, settleInOrder_nil. simpl.
    repeat split; assumption.
  - intros Hnone. unfold toggleLove.
    rewrite (filter_none _ registeredScrobblers) by exact Hnone.
    rewrite sendToEach_nobody. simpl. repeat split.
  - intros Hnone. unfold getSongInfo.
    rewrite (filter_none _ registeredScrobblers) by exact Hnone.
    rewrite settleInOrder_nil. simpl. repeat split.
Qed.

(** Song-info lookup never touches the Bound Set, whatever the lookups
    answer and in whatever order they settle. *)
Theorem getSongInfo_keeps_bound (registeredScrobblers : list ref) st songInfo schedule :
  boundScrobblers (after (getSongInfo heap registeredScrobblers st songInfo schedule))
  = boundScrobblers st.
Proof.
  unfold getSongInfo.
  match goal with
  | |- context [settleInOrder ?h ?t schedule ?s] =>
      pose proof (settleInOrder_preserves boundScrobblers h t schedule s) as Hsame;
      destruct (settleInOrder h t schedule s) as [st' events]
  end.
  simpl in *. rewrite Hsame; [reflexivity|].
  intros s k t. now destruct (BaseScrobbler.getSongInfo (heap t) songInfo).
Qed.

(** What the service's [scrobbleBatch] does deliver.  When the batch
    promises of the K bound scrobblers settle in any order, and so do
    the chunk requests of each, every one fulfilled or rejected with a
    list of indices, the call resolves with K arrays in the order of the
    Bound Set: for each scrobbler its failed indices, counted from the
    start of the batch.  It asks the bound scrobblers and leaves the
    Bound Set alone. *)
Theorem service_scrobbleBatch_resolves st songInfoArray chunkSchedules schedule :
  schedule ≡ₚ seq 0 (length (boundScrobblers st)) ->
  (forall i scrobbler,
     boundScrobblers st !! i = Some scrobbler ->
     chunkSchedules i ≡ₚ seq 0 (length (chunksOf (heap scrobbler) songInfoArray))
     /\ keepsBatchContract (heap scrobbler) songInfoArray = true) ->
  let c := call (scrobbleBatch heap st songInfoArray chunkSchedules schedule) in
  settled c
  = Some (Fulfilled
            (imap (fun i scrobbler =>
                     Some (chunkSchedules i
                             ≫= globalFailures (heap scrobbler) songInfoArray))
               (boundScrobblers st)))
  /\ called c = boundScrobblers st
  /\ boundScrobblers (after c) = boundScrobblers st.
Proof.
  intros Hperm Hkeeps c. subst c. unfold scrobbleBatch.
  set (scrobblers := boundScrobblers (write Log _ st)).
  pose proof (settleInOrder_fulfilled
    (batchRequest heap songInfoArray chunkSchedules) scrobblers
    (fun i scrobbler =>
       Some (chunkSchedules i ≫= globalFailures (heap scrobbler) songInfoArray))
    schedule ∅) as Hev.
  destruct (settleInOrder _ scrobblers schedule ∅) as [errored events].
  simpl in *. rewrite Hev.
  - rewrite all_fulfilled by exact Hperm. repeat split.
  - intros s i scrobbler Hi. destruct (Hkeeps i scrobbler Hi) as [Hp Hc].
    unfold batchRequest. now rewrite scrobbleBatch_fulfilled.
Qed.

(** After an auth failure the scrobbler is asked no more.  On a Bound
    Set without shared labels, the next [sendNowPlaying] or [scrobble]
    after a [scrobble] calls exactly the scrobblers that were bound and
    whose scrobble request was not rejected with [ERROR_AUTH] while the
    scrobbler was not ready for grant access. *)
Theorem auth_failure_stops_requests st songInfo schedule songInfo' schedule' :
  NoDup (labels heap (boundScrobblers st)) ->
  schedule ≡ₚ seq 0 (length (boundScrobblers st)) ->
  let st' := after (scrobble heap st songInfo schedule) in
  let remaining :=
    List.filter
      (fun x => negb (unbinds heap
                        (fun s => BaseScrobbler.scrobble (heap s) songInfo) x))
      (boundScrobblers st) in
  called (sendNowPlaying heap st' songInfo' schedule') = remaining
  /\ called (scrobble heap st' songInfo' schedule') = remaining.
Proof.
  intros Hlabels Hperm st' remaining.
  assert (Hbound : boundScrobblers st' = remaining).
  { unfold st', scrobble.
    apply (sendToEach_bound heap
             (fun s => BaseScrobbler.scrobble (heap s) songInfo) schedule
             (write Log _ st)); assumption. }
  unfold sendNowPlaying, scrobble at 1. rewrite !sendToEach_called.
  simpl. now rewrite Hbound.
Qed.

(** *** Binding again, and unbinding what was bound *)

Lemma attempts_fixed (scrobblers : list ref) (bound : list ref) :
  (forall s, s ∈ scrobblers -> sessionAcquired heap s = true ->
             isScrobblerInArray heap s bound = true) ->
  fold_left (boundAfterAttempt heap) scrobblers bound = bound.
Proof.
  induction scrobblers as [|s rest IH]; intros Hin; simpl; [reflexivity|].
  assert (Hstep : boundAfterAttempt heap bound s = bound).
  { unfold boundAfterAttempt.
    destruct (sessionAcquired heap s) eqn:Hs; simpl; [|reflexivity].
    rewrite Hin; [reflexivity| |exact Hs]. apply elem_of_cons. now left. }
  rewrite Hstep. apply IH. intros x Hx. apply Hin, elem_of_cons. now right.
Qed.

(** [bindAllScrobblers] a second time, with the sessions as they were,
    binds nobody new: the Bound Set is the one the first run returned,
    whatever was bound before it. *)
Theorem bindAllScrobblers_again (registeredScrobblers : list ref) st :
  boundScrobblers
    (bindAllScrobblers heap registeredScrobblers
       (bindAllScrobblers heap registeredScrobblers st))
  = boundScrobblers (bindAllScrobblers heap registeredScrobblers st).
Proof.
  rewrite (bindAllScrobblers_bound heap registeredScrobblers
             (bindAllScrobblers heap registeredScrobblers st)).
  rewrite (bindAllScrobblers_bound heap registeredScrobblers st).
  apply attempts_fixed. intros s Hs Hok.
  now apply isScrobblerInArray_labels, attempts_label_bound.
Qed.

Lemma indexOfFrom_app_last scrobbler (array : list ref) i :
  scrobbler ∉ array ->
  indexOfFrom scrobbler (array ++ [scrobbler]) i = i + Z.of_nat (length array).
Proof.
  revert i. induction array as [|y rest IH]; intros i Hnot; simpl.
  - rewrite Nat.eqb_refl. lia.
  - apply not_elem_of_cons in Hnot as [Hne Hnot].
    destruct (Nat.eqb_spec y scrobbler); [congruence|].
    rewrite IH by exact Hnot. lia.
Qed.

(** Unbinding a scrobbler right after it was bound undoes the binding:
    when no bound scrobbler has its label, [bindScrobbler] then
    [unbindScrobbler] gives back the Bound Set as it was. *)
Theorem bind_then_unbind st scrobbler :
  isScrobblerInArray heap scrobbler (boundScrobblers st) = false ->
  boundScrobblers
    (unbindScrobbler heap (bindScrobbler heap st scrobbler) scrobbler)
  = boundScrobblers st.
Proof.
  intros Hfresh.
  assert (Hnot : scrobbler ∉ boundScrobblers st).
  { intros Hin. apply (isScrobblerInArray_self heap) in Hin. congruence. }
  rewrite unbindScrobbler_bound, bindScrobbler_bound, Hfresh.
  rewrite isScrobblerInArray_self
    by (apply elem_of_app; right; now apply list_elem_of_singleton).
  unfold splice1, indexOf. rewrite indexOfFrom_app_last by exact Hnot.
  rewrite length_app.
  destruct (Z.ltb_spec (0 + Z.of_nat (length (boundScrobblers st))) 0) as [Hneg|_];
    [lia|].
  replace (Z.to_nat _) with (length (boundScrobblers st)) by (simpl; lia).
  rewrite delete_take_drop, take_app_length.
  rewrite drop_ge by (rewrite length_app; simpl; lia).
  apply app_nil_r.
Qed.

(** On a Bound Set without shared labels, unbinding a bound scrobbler a
    second time finds it gone: the call reports [not bound] on the
    console and changes nothing else. *)
Theorem unbind_twice st scrobbler :
  NoDup (labels heap (boundScrobblers st)) ->
  scrobbler ∈ boundScrobblers st ->
  unbindScrobbler heap (unbindScrobbler heap st scrobbler) scrobbler
  = write Error (label heap scrobbler +:+ " is not bound")
      (unbindScrobbler heap st scrobbler).
Proof.
  intros Hlabels Hin. apply unbindScrobbler_unknown_label.
  destruct (isScrobblerInArray heap scrobbler
              (boundScrobblers (unbindScrobbler heap st scrobbler))) eqn:Hlabel;
    [|reflexivity].
  apply isScrobblerInArray_true in Hlabel as (s & Hs & Heq).
  exfalso.
  apply (unbindScrobbler_not_elem heap st scrobbler (labels_NoDup heap _ Hlabels)).
  assert (Hs' : s ∈ boundScrobblers st).
  { eapply elem_of_sublist; [exact Hs|apply unbindScrobbler_sublist]. }
  assert (Hsame : s = scrobbler)
    by exact (labels_NoDup_inj heap _ s scrobbler Hlabels Hs' Hin Heq).
  subst s. exact Hs.
Qed.

End ServiceMore.

(** At work: nothing is bound, and the only registered scrobbler has the
    base capabilities. *)
Lemma dispatch_to_nobody_witness :
  ScrobbleService.settled
    (ScrobbleService.scrobble Scenario.heap ScrobbleService.initial
       Scenario.song [3; 1]%nat)
  = Some (Fulfilled [])
  /\ ScrobbleService.called
       (ScrobbleService.toggleLove Scenario.heap [7]%nat ScrobbleService.initial
          Scenario.song true [0]%nat)
     = [].
Proof.
  destruct (dispatch_to_nobody Scenario.heap [7]%nat ScrobbleService.initial
              Scenario.song Scenario.batch true (fun _ => []) [3; 1]%nat)
    as (Hbound & _ & _).
  destruct (dispatch_to_nobody Scenario.heap [7]%nat ScrobbleService.initial
              Scenario.song Scenario.batch true (fun _ => []) [0]%nat)
    as (_ & Hlove & _).
  split.
  - now destruct (Hbound eq_refl) as (_ & Hscrobble & _).
  - destruct Hlove as (Hcalled & _); [|exact Hcalled].
    intros s Hs. apply list_elem_of_singleton in Hs. now subst s.
Defined.

(** At work: Last.fm fails a scrobble with [ERROR_AUTH]; the now-playing
    request that follows goes to Libre.fm and GNU FM. *)
Lemma auth_failure_stops_requests_witness :
  ScrobbleService.called
    (ScrobbleService.sendNowPlaying Scenario.heap
       (ScrobbleService.after
          (ScrobbleService.scrobble Scenario.heap (Scenario.bound [0; 1; 3]%nat)
             Scenario.song [2; 0; 1]%nat))
       Scenario.song [0; 1]%nat)
  = [1; 3]%nat.
Proof.
  destruct (auth_failure_stops_requests Scenario.heap (Scenario.bound [0; 1; 3]%nat)
              Scenario.song [2; 0; 1]%nat Scenario.song [0; 1]%nat)
    as [Hnext _]; [compute_done|compute_done|].
  etransitivity; [exact Hnext|reflexivity].
Defined.

(** At work: Libre.fm has nothing to report and ListenBrainz song 4. *)
Lemma service_scrobbleBatch_resolves_witness :
  ScrobbleService.settled
    (ScrobbleService.call
       (ScrobbleService.scrobbleBatch Scenario.heap (Scenario.bound [1; 2]%nat)
          Scenario.batch
          (fun i => match i with 0%nat => [0]%nat | _ => [1; 2; 0]%nat end)
          [1; 0]%nat))
  = Some (Fulfilled [Some []; Some [4]]).
Proof.
  destruct (service_scrobbleBatch_resolves Scenario.heap (Scenario.bound [1; 2]%nat)
              Scenario.batch
              (fun i => match i with 0%nat => [0]%nat | _ => [1; 2; 0]%nat end)
              [1; 0]%nat) as (Hsettled & _); [compute_done| |].
  - intros [|[|i]] scrobbler Hi; simpl in Hi; try discriminate;
      injection Hi as <-; (split; [compute_done|reflexivity]).
  - rewrite Hsettled. reflexivity.
Defined.

(** At work: Libre.fm is bound, ListenBrainz is bound and unbound again. *)
Lemma bind_then_unbind_witness :
  ScrobbleService.boundScrobblers
    (ScrobbleService.unbindScrobbler Scenario.heap
       (ScrobbleService.bindScrobbler Scenario.heap (Scenario.bound [1]%nat) 2%nat)
       2%nat)
  = [1]%nat.
Proof. apply (bind_then_unbind Scenario.heap (Scenario.bound [1]%nat) 2%nat). reflexivity. Defined.

(** At work: Libre.fm is unbound twice. *)
Lemma unbind_twice_witness :
  ScrobbleService.console
    (ScrobbleService.unbindScrobbler Scenario.heap
       (ScrobbleService.unbindScrobbler Scenario.heap (Scenario.bound [0; 1]%nat) 1%nat)
       1%nat)
  = [(Log, "Unbind Libre.fm scrobbler"); (Error, "Libre.fm is not bound")].
Proof.
  rewrite (unbind_twice Scenario.heap (Scenario.bound [0; 1]%nat) 1%nat);
    [reflexivity|compute_done|compute_done].
Defined.

(** ** More on the batch chunker: small batches, and where the indices point *)

Section ChunkerMore.
Import BaseScrobbler Props Further.
Variable this : Scrobbler.
Implicit Types (songInfoArray : list Song) (schedule : list nat).

(** An empty batch is cut into no chunk: the call sends no request and
    fulfils with no failed index, under any schedule and whatever the
    chunk size. *)
Theorem scrobbleBatch_empty_batch schedule :
  chunksOf this [] = []
  /\ scrobbleBatch this [] schedule = Some (Fulfilled []).
Proof.
  split; [reflexivity|]. unfold scrobbleBatch.
  change (splitArrayToChunks [] (getMaxTrackCountToScrobble this))
    with (@nil (list Song)).
  now rewrite settleInOrder_nil.
Qed.

Lemma splitArrayToChunksFuel_nil {A : Type} fuel (m : nat) :
  splitArrayToChunksFuel fuel (@nil A) m = [].
Proof. now destruct fuel. Qed.

(** A batch that fits into one chunk goes out as it is, in one request,
    and the indices that request is rejected with are the failure list,
    unchanged. *)
Theorem scrobbleBatch_single_chunk songInfoArray :
  0 < getMaxTrackCountToScrobble this ->
  songInfoArray <> [] ->
  Z.of_nat (length songInfoArray) <= getMaxTrackCountToScrobble this ->
  chunksOf this songInfoArray = [songInfoArray]
  /\ scrobbleBatch this songInfoArray [0%nat]
     = match scrobbleBatchWithLimit this 0 songInfoArray with
       | Fulfilled _ => Some (Fulfilled [])
       | Rejected (FailedIndices songIndices) => Some (Fulfilled songIndices)
       | Rejected (Thrown _ _) =>
           Some (Rejected (VError "TypeError" "songIndices is not iterable"))
       end.
Proof.
  intros HM Hne Hfit.
  assert (Hchunks : chunksOf this songInfoArray = [songInfoArray]).
  { unfold chunksOf, splitArrayToChunks.
    destruct songInfoArray as [|x rest]; [congruence|].
    change (splitArrayToChunksFuel (length (x :: rest)) (x :: rest)
              (Z.to_nat (getMaxTrackCountToScrobble this)))
      with (take (Z.to_nat (getMaxTrackCountToScrobble this)) (x :: rest)
              :: splitArrayToChunksFuel (length rest)
                   (drop (Z.to_nat (getMaxTrackCountToScrobble this)) (x :: rest))
                   (Z.to_nat (getMaxTrackCountToScrobble this))).
    rewrite take_ge, drop_ge by lia.
    now rewrite splitArrayToChunksFuel_nil. }
  split; [exact Hchunks|].
  unfold scrobbleBatch. fold (chunksOf this songInfoArray). rewrite Hchunks.
  simpl. unfold chunkRequest, onChunkSettled.
  destruct (scrobbleBatchWithLimit this 0 songInfoArray)
    as [v|[songIndices|name message]]; simpl; try reflexivity.
  do 2 f_equal. rewrite <- (map_id songIndices) at 2.
  apply map_ext. intros i. lia.
Qed.

Lemma chunk_lookup songInfoArray k chunk (j : nat) :
  0 < getMaxTrackCountToScrobble this ->
  chunksOf this songInfoArray !! k = Some chunk ->
  (j < length chunk)%nat ->
  (length chunk <= Z.to_nat (getMaxTrackCountToScrobble this))%nat
  /\ (k * Z.to_nat (getMaxTrackCountToScrobble this) + j < length songInfoArray)%nat
  /\ songInfoArray !! (k * Z.to_nat (getMaxTrackCountToScrobble this) + j)%nat
     = chunk !! j.
Proof.
  intros HM Hk Hj.
  destruct (chunksOf_lookup this songInfoArray k chunk HM Hk) as [Hlt ->].
  rewrite length_take, length_drop in Hj |- *.
  split; [lia|]. split; [lia|].
  rewrite lookup_take_lt by lia. now rewrite lookup_drop.
Qed.

Lemma localFailures_chunk songInfoArray k i :
  i ∈ localFailures this songInfoArray k ->
  exists chunk, chunksOf this songInfoArray !! k = Some chunk.
Proof.
  unfold localFailures.
  destruct (chunksOf this songInfoArray !! k) as [chunk|]; [eauto|].
  intros Hi. now apply elem_of_nil in Hi.
Qed.

(** A global index leads back to the song that failed.  With a chunk
    size M > 0, for an index i within chunk k, the index k*M + i lies
    within the batch and the song there is song i of chunk k.  So when
    every chunk request reports indices within its chunk, every index of
    the failure list that [scrobbleBatch] fulfils with names a song of
    the batch. *)
Theorem global_index_names_the_song songInfoArray schedule :
  0 < getMaxTrackCountToScrobble this ->
  (forall k chunk i,
     chunksOf this songInfoArray !! k = Some chunk ->
     0 <= i < Z.of_nat (length chunk) ->
     let g := Z.of_nat k * getMaxTrackCountToScrobble this + i in
     0 <= g < Z.of_nat (length songInfoArray)
     /\ songInfoArray !! Z.to_nat g = chunk !! Z.to_nat i)
  /\ (schedule ≡ₚ seq 0 (length (chunksOf this songInfoArray)) ->
      failuresInChunk this songInfoArray ->
      forall results,
        scrobbleBatch this songInfoArray schedule = Some (Fulfilled results) ->
        forall g, g ∈ results ->
                  0 <= g < Z.of_nat (length songInfoArray)
                  /\ is_Some (songInfoArray !! Z.to_nat g)).
Proof.
  intros HM.
  assert (Hpoint : forall k chunk i,
    chunksOf this songInfoArray !! k = Some chunk ->
    0 <= i < Z.of_nat (length chunk) ->
    0 <= Z.of_nat k * getMaxTrackCountToScrobble this + i
      < Z.of_nat (length songInfoArray)
    /\ songInfoArray !! Z.to_nat (Z.of_nat k * getMaxTrackCountToScrobble this + i)
       = chunk !! Z.to_nat i).
  { intros k chunk i Hk Hi.
    destruct (chunk_lookup songInfoArray k chunk (Z.to_nat i) HM Hk)
      as (Hlen & Hlt & Hsong); [lia|].
    replace (Z.to_nat (Z.of_nat k * getMaxTrackCountToScrobble this + i))
      with (k * Z.to_nat (getMaxTrackCountToScrobble this) + Z.to_nat i)%nat
      by nia.
    split; [nia|exact Hsong]. }
  split; [exact Hpoint|].
  intros Hperm Hin results Hsettled g Hg.
  apply scrobbleBatch_fulfilled_results in Hsettled. subst results.
  apply (elem_of_globalFailures_bind this songInfoArray schedule g Hperm) in Hg
    as (k & i & Hk & Hi & ->).
  destruct (localFailures_chunk songInfoArray k i Hi) as [chunk Hchunk].
  destruct (Hpoint k chunk i Hchunk (Hin k chunk i Hchunk Hi)) as [Hrange Hsong].
  split; [exact Hrange|].
  apply lookup_lt_is_Some_2. lia.
Qed.

(** No song is reported twice: when every chunk request reports indices
    within its chunk and none of them twice, the failure list that
    [scrobbleBatch] fulfils with has no repetition, whatever the order
    in which the chunk requests settle. *)
Theorem failure_list_without_repetition songInfoArray schedule results :
  0 < getMaxTrackCountToScrobble this ->
  schedule ≡ₚ seq 0 (length (chunksOf this songInfoArray)) ->
  failuresInChunk this songInfoArray ->
  (forall k, NoDup (localFailures this songInfoArray k)) ->
  scrobbleBatch this songInfoArray schedule = Some (Fulfilled results) ->
  NoDup results.
Proof.
  intros HM Hperm Hin Hnd Hsettled.
  apply scrobbleBatch_fulfilled_results in Hsettled. subst results.
  assert (Hbound : forall k i, i ∈ localFailures this songInfoArray k ->
                               0 <= i < getMaxTrackCountToScrobble this).
  { intros k i Hi. destruct (localFailures_chunk songInfoArray k i Hi) as [chunk Hk].
    pose proof (Hin k chunk i Hk Hi) as Hrange.
    destruct (chunk_lookup songInfoArray k chunk (Z.to_nat i) HM Hk) as (Hlen & _);
      lia. }
  apply NoDup_bind.
  - intros k1 k2 g _ _ Hg1 Hg2. unfold globalFailures in *.
    apply list_elem_of_In, in_map_iff in Hg1 as (i1 & <- & Hi1).
    apply list_elem_of_In, in_map_iff in Hg2 as (i2 & Heq & Hi2).
    apply list_elem_of_In, Hbound in Hi1. apply list_elem_of_In, Hbound in Hi2.
    nia.
  - intros k _. unfold globalFailures.
    apply (NoDup_fmap_2_strong
             (fun i => Z.of_nat k * getMaxTrackCountToScrobble this + i));
      [|apply Hnd].
    intros x y _ _ Hxy. lia.
  - rewrite Hperm. apply NoDup_seq.
Qed.

End ChunkerMore.

(** At work: four songs for Libre.fm, fifty to a chunk. *)
Lemma scrobbleBatch_single_chunk_witness :
  BaseScrobbler.scrobbleBatch (Scenario.heap 1%nat) [VObj 0; VObj 1; VObj 2; VObj 3]
    [0%nat]
  = Some (Fulfilled []).
Proof.
  destruct (scrobbleBatch_single_chunk (Scenario.heap 1%nat)
              [VObj 0; VObj 1; VObj 2; VObj 3]) as [_ Hcall];
    [reflexivity|discriminate|simpl; lia|].
  rewrite Hcall. reflexivity.
Defined.

Lemma scenario_failuresInChunk :
  Further.failuresInChunk (Scenario.heap 2%nat) Scenario.batch.
Proof.
  intros [|[|[|k]]] chunk i Hk Hi; vm_compute in Hk; try discriminate;
    injection Hk as <-; vm_compute in Hi;
    try (now apply elem_of_nil in Hi).
  apply list_elem_of_singleton in Hi. subst i. simpl. lia.
Qed.

(** At work: the index 4 that ListenBrainz reports is within the seven
    songs of the batch. *)
Lemma global_index_names_the_song_witness :
  0 <= 4 < Z.of_nat (length Scenario.batch)
  /\ is_Some (Scenario.batch !! Z.to_nat 4).
Proof.
  destruct (global_index_names_the_song (Scenario.heap 2%nat) Scenario.batch
              [2; 0; 1]%nat) as [_ Hresults]; [reflexivity|].
  apply (Hresults ltac:(compute_done) scenario_failuresInChunk [4] eq_refl).
  now apply list_elem_of_singleton.
Defined.

(** At work: the failure list of ListenBrainz. *)
Lemma failure_list_without_repetition_witness :
  exists results,
    BaseScrobbler.scrobbleBatch (Scenario.heap 2%nat) Scenario.batch [2; 0; 1]%nat
    = Some (Fulfilled results)
    /\ NoDup results.
Proof.
  exists [4]. split; [reflexivity|].
  apply (failure_list_without_repetition (Scenario.heap 2%nat) Scenario.batch
           [2; 0; 1]%nat [4]).
  - reflexivity.
  - compute_done.
  - exact scenario_failuresInChunk.
  - intros [|[|[|k]]]; vm_compute; try constructor.
    + intros Hin. now apply elem_of_nil in Hin.
    + constructor.
  - reflexivity.
Defined.
(** ** User properties *)

Section UserPropertiesFacts.
Import UserProperties.
Implicit Types (props : Props) (allowedProps : list string).
Implicit Types (this stored object : gmap string Value) (storage : Data).

Lemma assign_lookup prop propValue object k :
  assign prop propValue object !! k
  = if decide (prop = k)
    then (if truthy propValue then Some propValue else None)
    else object !! k.
Proof.
  unfold assign. destruct (truthy propValue).
  - destruct (decide (prop = k)) as [->|Hne];
      [apply lookup_insert_eq|now apply lookup_insert_ne].
  - destruct (decide (prop = k)) as [->|Hne];
      [apply lookup_delete_eq|now apply lookup_delete_ne].
Qed.

Lemma storeProps_other props object k :
  k ∉ keys props -> storeProps props object !! k = object !! k.
Proof.
  unfold storeProps, keys. revert object.
  induction props as [|[prop propValue] rest IH]; intros object Hnot; simpl;
    [reflexivity|].
  rewrite fmap_cons in Hnot. apply not_elem_of_cons in Hnot as [Hne Hnot].
  rewrite IH by exact Hnot. rewrite assign_lookup.
  simpl in Hne. now destruct (decide (prop = k)); [congruence|].
Qed.

Lemma storeProps_lookup props object prop propValue :
  NoDup (keys props) -> (prop, propValue) ∈ props ->
  storeProps props object !! prop
  = if truthy propValue then Some propValue else None.
Proof.
  unfold keys. revert object.
  induction props as [|[k v] rest IH]; intros object Hnd Hin.
  - now apply elem_of_nil in Hin.
  - rewrite fmap_cons in Hnd. apply NoDup_cons in Hnd as [Hfresh Hnd].
    apply elem_of_cons in Hin as [Heq|Hin].
    + injection Heq as -> ->.
      change (storeProps ((k, v) :: rest) object)
        with (storeProps rest (assign k v object)).
      rewrite storeProps_other by exact Hfresh.
      rewrite assign_lookup. now destruct (decide (k = k)).
    + change (storeProps ((k, v) :: rest) object)
        with (storeProps rest (assign k v object)).
      now apply IH.
Qed.

Lemma applyProps_accepted props allowedProps this :
  forallb (accepted allowedProps) props = true ->
  applyProps props allowedProps this = (storeProps props this, Fulfilled tt).
Proof.
  revert this. induction props as [|[prop propValue] rest IH]; intros this Hall;
    [reflexivity|].
  simpl in Hall. apply andb_true_iff in Hall as [Hacc Hall].
  unfold accepted in Hacc. simpl in Hacc.
  apply andb_true_iff in Hacc as [Hallowed Hset].
  simpl. rewrite Hallowed. simpl.
  destruct propValue; try discriminate; now apply IH.
Qed.

Lemma applyProps_refused pre prop propValue post allowedProps this :
  forallb (accepted allowedProps) pre = true ->
  accepted allowedProps (prop, propValue) = false ->
  applyProps (pre ++ (prop, propValue) :: post) allowedProps this
  = (storeProps pre this,
     Rejected
       (VError "Error"
          ((if existsb (String.eqb prop) allowedProps
            then "Property is not set: "
            else "Unknown property: ") +:+ prop))).
Proof.
  revert this. induction pre as [|[k v] rest IH]; intros this Hall Hbad.
  - simpl. unfold accepted in Hbad. simpl in Hbad.
    destruct (existsb (String.eqb prop) allowedProps); simpl; [|reflexivity].
    simpl in Hbad. now destruct propValue.
  - simpl in Hall. apply andb_true_iff in Hall as [Hacc Hall].
    unfold accepted in Hacc. simpl in Hacc.
    apply andb_true_iff in Hacc as [Hallowed Hset].
    simpl. rewrite Hallowed. simpl.
    destruct v; try discriminate; now apply IH.
Qed.

Lemma forallb_false_split {A : Type} (f : A -> bool) (l : list A) :
  forallb f l = false ->
  exists pre x post, l = pre ++ x :: post /\ forallb f pre = true /\ f x = false.
Proof.
  induction l as [|x l IH]; simpl; [discriminate|].
  destruct (f x) eqn:Hx; simpl.
  - intros Hl. destruct (IH Hl) as (pre & y & post & -> & Hpre & Hy).
    exists (x :: pre), y, post. simpl. now rewrite Hx.
  - intros _. exists [], x, l. auto.
Qed.

(** [applyProps] returns exactly when every property is allowed and none
    is [undefined].  Then, the properties being named once each, a truthy
    value is set on the instance, a property with another value is
    removed from it, and what [props] does not name is left alone.
    Otherwise it throws for the first property, in the order of the
    loop, that is not allowed or is [undefined], with the properties
    before that one already applied and the ones after it not. *)
Theorem applyProps_outcome props allowedProps this :
  ((applyProps props allowedProps this).2 = Fulfilled tt
   <-> forallb (accepted allowedProps) props = true)
  /\ (forallb (accepted allowedProps) props = true ->
      NoDup (keys props) ->
      (forall prop propValue,
         (prop, propValue) ∈ props ->
         (applyProps props allowedProps this).1 !! prop
         = if truthy propValue then Some propValue else None)
      /\ (forall prop,
            prop ∉ keys props ->
            (applyProps props allowedProps this).1 !! prop = this !! prop))
  /\ (forall pre prop propValue post,
        props = pre ++ (prop, propValue) :: post ->
        forallb (accepted allowedProps) pre = true ->
        accepted allowedProps (prop, propValue) = false ->
        applyProps props allowedProps this
        = ((applyProps pre allowedProps this).1,
           Rejected
             (VError "Error"
                ((if existsb (String.eqb prop) allowedProps
                  then "Property is not set: "
                  else "Unknown property: ") +:+ prop)))).
Proof.
  split; [|split].
  - split.
    + intros Hok. destruct (forallb (accepted allowedProps) props) eqn:Hall;
        [reflexivity|].
      destruct (forallb_false_split _ _ Hall) as (pre & [k v] & post & -> & Hpre & Hbad).
      rewrite (applyProps_refused pre k v post) in Hok by assumption.
      discriminate Hok.
    + intros Hall. now rewrite applyProps_accepted.
  - intros Hall Hnd. rewrite applyProps_accepted by exact Hall. simpl. split.
    + intros prop propValue Hin. now apply storeProps_lookup.
    + intros prop Hnot. now apply storeProps_other.
  - intros pre prop propValue post -> Hpre Hbad.
    rewrite (applyProps_refused pre prop propValue post) by assumption.
    now rewrite (applyProps_accepted pre) by exact Hpre.
Qed.

(** When [applyUserProperties] goes through, the properties being named
    once each, the instance and the stored properties agree on every
    property that [props] names; the stored properties that [props] does
    not name and the session data are as before.  So a fresh instance
    that loads the stored properties with [initUserProps] has the named
    properties as this one has them, also after a [signOut]. *)
Theorem applyUserProperties_stores props allowedProps this storage :
  forallb (accepted allowedProps) props = true ->
  NoDup (keys props) ->
  exists this' stored',
    applyUserProperties props allowedProps this storage
    = (this',
       {| sessionID := sessionID storage;
          sessionName := sessionName storage;
          token := token storage;
          properties := Some stored' |},
       Fulfilled tt)
    /\ (forall prop, prop ∈ keys props -> this' !! prop = stored' !! prop)
    /\ (forall prop, prop ∉ keys props ->
          stored' !! prop
          = match properties storage with
            | Some stored => stored !! prop
            | None => None
            end)
    /\ (forall prop,
          prop ∈ keys props ->
          let storage' :=
            {| sessionID := sessionID storage;
               sessionName := sessionName storage;
               token := token storage;
               properties := Some stored' |} in
          initUserProps (∅ : gmap string Value) storage' !! prop = this' !! prop
          /\ initUserProps (∅ : gmap string Value) (signOut storage') !! prop
             = this' !! prop).
Proof.
  intros Hall Hnd. unfold applyUserProperties.
  rewrite applyProps_accepted by exact Hall. unfold storageGet, storageSet.
  set (stored := match properties storage with
                 | Some stored => stored
                 | None => ∅
                 end).
  exists (storeProps props this), (storeProps props stored).
  split; [reflexivity|].
  assert (Hagree : forall prop, prop ∈ keys props ->
                     storeProps props this !! prop = storeProps props stored !! prop).
  { intros prop Hin. unfold keys in Hin.
    apply list_elem_of_fmap in Hin as ([k v] & -> & Hin). simpl.
    now rewrite !(storeProps_lookup props _ k v). }
  split; [exact Hagree|]. split.
  - intros prop Hnot. rewrite storeProps_other by exact Hnot.
    unfold stored. destruct (properties storage); [reflexivity|apply lookup_empty].
  - intros prop Hin. cbv zeta.
    unfold initUserProps, signOut, storageGet, storageSet. simpl.
    rewrite (Hagree prop Hin).
    assert (Hunion : (storeProps props stored ∪ (∅ : gmap string Value)) !! prop
                     = storeProps props stored !! prop)
      by now rewrite (right_id_L ∅ (∪)).
    split; exact Hunion.
Qed.

(** When [applyUserProperties] is rejected, which it is as soon as one
    property is not allowed or is [undefined], nothing is written to the
    storage.  A scrobbler that keeps the base
    [getUsedDefinedProperties] takes no property at all: the call is
    rejected for the first one, and the instance is as before. *)
Theorem applyUserProperties_rejected props allowedProps this storage :
  (forallb (accepted allowedProps) props = false ->
   exists this' e,
     applyUserProperties props allowedProps this storage
     = (this', storage, Rejected e))
  /\ (forall prop propValue rest,
        applyUserProperties ((prop, propValue) :: rest) getUsedDefinedProperties
          this storage
        = (this, storage,
           Rejected (VError "Error" ("Unknown property: " +:+ prop)))).
Proof.
  split.
  - intros Hall.
    destruct (forallb_false_split _ _ Hall) as (pre & [k v] & post & -> & Hpre & Hbad).
    unfold applyUserProperties.
    rewrite (applyProps_refused pre k v post) by assumption. eauto.
  - intros prop propValue rest. reflexivity.
Qed.

End UserPropertiesFacts.

(** At work: of two allowed properties one is set and one, empty, is
    removed; a third one is not allowed. *)
Lemma applyProps_outcome_witness :
  (UserProperties.applyProps
     [("userApiUrl"%string, VStr "https://example.org/"); ("userToken"%string, VStr EmptyString)]
     ["userApiUrl"%string; "userToken"%string]
     {[ "userToken"%string := VStr "old" ]}).1 !! "userToken"%string
  = None
  /\ UserProperties.applyProps
       [("userApiUrl"%string, VStr "https://example.org/"); ("sessionID"%string, VStr "x")]
       ["userApiUrl"%string; "userToken"%string] (∅ : gmap string Value)
     = ({[ "userApiUrl"%string := VStr "https://example.org/" ]},
        Rejected (VError "Error" "Unknown property: sessionID")).
Proof.
  split.
  - destruct (applyProps_outcome
                [("userApiUrl"%string, VStr "https://example.org/");
                 ("userToken"%string, VStr EmptyString)]
                ["userApiUrl"%string; "userToken"%string]
                {[ "userToken"%string := VStr "old" ]}) as (_ & Hset & _).
    destruct Hset as [Hnamed _]; [reflexivity|compute_done|].
    apply (Hnamed "userToken"%string (VStr EmptyString)).
    apply elem_of_cons. right. apply elem_of_cons. now left.
  - destruct (applyProps_outcome
                [("userApiUrl"%string, VStr "https://example.org/");
                 ("sessionID"%string, VStr "x")]
                ["userApiUrl"%string; "userToken"%string] (∅ : gmap string Value)) as (_ & _ & Hthrow).
    etransitivity;
      [apply (Hthrow [("userApiUrl"%string, VStr "https://example.org/")]
                "sessionID"%string (VStr "x") []); reflexivity
      |reflexivity].
Defined.

Lemma applyUserProperties_stores_witness :
  exists this' stored',
    (UserProperties.applyUserProperties
       [("userApiUrl"%string, VStr "https://example.org/")]
       ["userApiUrl"%string] (∅ : gmap string Value)
       {| UserProperties.sessionID := Some (VStr "s");
          UserProperties.sessionName := Some (VStr "n");
          UserProperties.token := None;
          UserProperties.properties := None |}).1
    = (this',
       {| UserProperties.sessionID := Some (VStr "s");
          UserProperties.sessionName := Some (VStr "n");
          UserProperties.token := None;
          UserProperties.properties := Some stored' |})
    /\ this' !! "userApiUrl"%string = stored' !! "userApiUrl"%string.
Proof.
  destruct (applyUserProperties_stores
              [("userApiUrl"%string, VStr "https://example.org/")]
              ["userApiUrl"%string] (∅ : gmap string Value)
              {| UserProperties.sessionID := Some (VStr "s");
                 UserProperties.sessionName := Some (VStr "n");
                 UserProperties.token := None;
                 UserProperties.properties := None |})
    as (this' & stored' & Hcall & Hagree & _); [reflexivity|compute_done|].
  exists this', stored'. rewrite Hcall. split; [reflexivity|].
  apply Hagree. compute_done.
Defined.

Lemma applyUserProperties_rejected_witness :
  exists this' e,
    UserProperties.applyUserProperties
      [("userApiUrl"%string, VUndefined)] ["userApiUrl"%string] (∅ : gmap string Value)
      {| UserProperties.sessionID := None;
         UserProperties.sessionName := None;
         UserProperties.token := None;
         UserProperties.properties := None |}
    = (this',
       {| UserProperties.sessionID := None;
          UserProperties.sessionName := None;
          UserProperties.token := None;
          UserProperties.properties := None |},
       Rejected e).
Proof.
  destruct (applyUserProperties_rejected
              [("userApiUrl"%string, VUndefined)] ["userApiUrl"%string] (∅ : gmap string Value)
              {| UserProperties.sessionID := None;
                 UserProperties.sessionName := None;
                 UserProperties.token := None;
                 UserProperties.properties := None |}) as [Hrejected _].
  apply Hrejected. reflexivity.
Defined.

(** ** The saved song edits *)

Section SavedEditsFacts.
Import SavedEdits.
Variable USER_FIELDS : list string.
Implicit Types (song : Song) (storage : gmap string (gmap string Value)).
Implicit Types (data source target : gmap string Value) (field : string).

Lemma copyFields_lookup (fields : list string) source target field :
  copyFields fields source target !! field
  = if decide (field ∈ fields) then Some (get source field) else target !! field.
Proof.
  unfold copyFields. revert target.
  induction fields as [|f rest IH]; intros target; cbn [fold_left].
  - destruct (decide (field ∈ [])) as [Hin|_]; [|reflexivity].
    now apply elem_of_nil in Hin.
  - rewrite IH. destruct (decide (field ∈ rest)) as [Hin|Hnot].
    + rewrite decide_True; [reflexivity|]. apply elem_of_cons. now right.
    + destruct (decide (f = field)) as [->|Hne].
      * rewrite lookup_insert_eq.
        rewrite decide_True; [reflexivity|]. apply elem_of_cons. now left.
      * rewrite lookup_insert_ne by exact Hne.
        rewrite decide_False; [reflexivity|].
        intros Hin. apply elem_of_cons in Hin as [Heq|Hin]; congruence.
Qed.

Lemma get_copyFields (fields : list string) source target field :
  field ∈ fields -> get (copyFields fields source target) field = get source field.
Proof.
  intros Hin. unfold get at 1. rewrite copyFields_lookup.
  now rewrite decide_True by exact Hin.
Qed.

(** What [saveSongData] saves, [fillSongData] gives back.  For two song
    objects with one id: after the data is saved for the first, filling
    the second succeeds, every user field of [song.processed] is the
    value the data has for it ([undefined] when the data lacks it), and
    the other properties of [song.processed] are untouched. *)
Theorem save_then_fill song song' data storage songId :
  songKey song = Some songId ->
  songKey song' = Some songId ->
  let filled := fillSongData USER_FIELDS song'
                  (saveSongData USER_FIELDS song data storage) in
  filled.2 = true
  /\ getUniqueId filled.1 = getUniqueId song'
  /\ (forall field, field ∈ USER_FIELDS ->
        processed filled.1 !! field = Some (get data field))
  /\ (forall field, field ∉ USER_FIELDS ->
        processed filled.1 !! field = processed song' !! field).
Proof.
  intros Hkey Hkey' filled. subst filled.
  unfold fillSongData, saveSongData, Storage. rewrite Hkey, Hkey'.
  rewrite lookup_insert_eq. simpl.
  split; [reflexivity|]. split; [reflexivity|]. split.
  - intros field Hin. rewrite copyFields_lookup.
    rewrite decide_True by exact Hin. f_equal. now apply get_copyFields.
  - intros field Hnot. rewrite copyFields_lookup.
    now rewrite decide_False by exact Hnot.
Qed.

(** For a song whose id names no member of [Object.prototype]:
    [fillSongData] answers [true] exactly when the song has an id, other
    than the empty string, under which something is saved; when it
    answers [false] the song is as it was.  For a song without such an
    id, [saveSongData] and [removeSongData] leave the storage as it
    is. *)
Theorem fill_finds_saved_songs song data storage :
  keyIsOwn song = true ->
  ((fillSongData USER_FIELDS song storage).2 = true
   <-> exists songId, songKey song = Some songId /\ is_Some (storage !! songId))
  /\ ((fillSongData USER_FIELDS song storage).2 = false ->
      (fillSongData USER_FIELDS song storage).1 = song)
  /\ (songKey song = None <->
      getUniqueId song = None \/ getUniqueId song = Some EmptyString)
  /\ (songKey song = None ->
      saveSongData USER_FIELDS song data storage = storage
      /\ removeSongData song storage = storage).
Proof.
  intros _. unfold fillSongData, saveSongData, removeSongData, Storage.
  split; [|split; [|split]].
  - destruct (songKey song) as [songId|].
    + destruct (storage !! songId) as [saved|] eqn:Hsaved; simpl; split.
      * intros _. exists songId. rewrite Hsaved. eauto.
      * reflexivity.
      * discriminate.
      * intros (id & [= <-] & [saved Hs]). congruence.
    + simpl. split; [discriminate|]. now intros (id & Hid & _).
  - destruct (songKey song) as [songId|]; [|reflexivity].
    destruct (storage !! songId); [discriminate|reflexivity].
  - unfold songKey. destruct (getUniqueId song) as [[|a s]|]; split;
      try reflexivity; try discriminate; auto.
    + intros [H|H]; discriminate H.
  - now intros ->.
Qed.

(** For a song whose id names no member of [Object.prototype]: after
    [removeSongData] nothing is found for the song, and the song is left
    as it was; removing discards what was saved, so saving and then
    removing is removing. *)
Theorem remove_then_fill song song' data storage :
  keyIsOwn song = true ->
  songKey song' = songKey song ->
  fillSongData USER_FIELDS song' (removeSongData song storage) = (song', false)
  /\ removeSongData song (saveSongData USER_FIELDS song data storage)
     = removeSongData song storage.
Proof.
  intros _ Hkey. unfold fillSongData, removeSongData, saveSongData, Storage.
  rewrite Hkey.
  destruct (songKey song) as [songId|]; [|split; reflexivity].
  rewrite lookup_delete_eq. split; [reflexivity|].
  now rewrite delete_insert_eq.
Qed.

(** For songs whose ids name no member of [Object.prototype]: saving or
    removing the edits of one song does not show in what is found for a
    song with another id. *)
Theorem other_songs_untouched song song' data storage :
  keyIsOwn song = true ->
  keyIsOwn song' = true ->
  songKey song' <> songKey song ->
  fillSongData USER_FIELDS song' (saveSongData USER_FIELDS song data storage)
  = fillSongData USER_FIELDS song' storage
  /\ fillSongData USER_FIELDS song' (removeSongData song storage)
     = fillSongData USER_FIELDS song' storage.
Proof.
  intros _ _ Hne. unfold fillSongData, saveSongData, removeSongData, Storage.
  destruct (songKey song) as [songId|]; [|split; reflexivity].
  destruct (songKey song') as [songId'|]; [|split; reflexivity].
  assert (Hid : songId <> songId') by congruence.
  now rewrite lookup_insert_ne, lookup_delete_ne by exact Hid.
Qed.

End SavedEditsFacts.

(** At work: the artist is saved for a song and found for another object
    of the same song; the track, which the data lacks, comes back
    [undefined]. *)
Lemma save_then_fill_witness :
  let song := {| SavedEdits.getUniqueId := Some "abc"%string;
                 SavedEdits.processed := ∅ |} in
  SavedEdits.processed
    (SavedEdits.fillSongData ["artist"%string; "track"%string] song
       (SavedEdits.saveSongData ["artist"%string; "track"%string] song
          {[ "artist"%string := VStr "Low" ]} ∅)).1 !! "track"%string
  = Some VUndefined.
Proof.
  intros song.
  destruct (save_then_fill ["artist"%string; "track"%string] song song
              {[ "artist"%string := VStr "Low" ]} ∅ "abc"%string eq_refl eq_refl)
    as (_ & _ & Hfields & _).
  rewrite Hfields; [reflexivity|compute_done].
Defined.

(** At work: nothing is saved for the song, and it has an id. *)
Lemma fill_finds_saved_songs_witness :
  let song := {| SavedEdits.getUniqueId := Some "abc"%string;
                 SavedEdits.processed := ∅ |} in
  SavedEdits.keyIsOwn song = true
  /\ SavedEdits.fillSongData ["artist"%string] song ∅ = (song, false).
Proof.
  intros song. split; [reflexivity|].
  destruct (fill_finds_saved_songs ["artist"%string] song
              {[ "artist"%string := VStr "Low" ]} ∅ eq_refl)
    as (_ & Hsame & _).
  rewrite <- (Hsame eq_refl). reflexivity.
Defined.

Lemma remove_then_fill_witness :
  let song := {| SavedEdits.getUniqueId := Some "abc"%string;
                 SavedEdits.processed := ∅ |} in
  SavedEdits.fillSongData ["artist"%string] song
    (SavedEdits.removeSongData song
       (SavedEdits.saveSongData ["artist"%string] song
          {[ "artist"%string := VStr "Low" ]} ∅))
  = (song, false).
Proof.
  intros song.
  destruct (remove_then_fill ["artist"%string] song song
              {[ "artist"%string := VStr "Low" ]}
              (SavedEdits.saveSongData ["artist"%string] song
                 {[ "artist"%string := VStr "Low" ]} ∅) eq_refl eq_refl)
    as [Hfill _].
  exact Hfill.
Defined.

Lemma other_songs_untouched_witness :
  let song := {| SavedEdits.getUniqueId := Some "abc"%string;
                 SavedEdits.processed := ∅ |} in
  let other := {| SavedEdits.getUniqueId := Some "xyz"%string;
                  SavedEdits.processed := ∅ |} in
  SavedEdits.fillSongData ["artist"%string] other
    (SavedEdits.saveSongData ["artist"%string] song
       {[ "artist"%string := VStr "Low" ]} ∅)
  = (other, false).
Proof.
  intros song other.
  destruct (other_songs_untouched ["artist"%string] song other
              {[ "artist"%string := VStr "Low" ]} ∅ eq_refl eq_refl)
    as [Hsave _]; [discriminate|].
  etransitivity; [exact Hsave|reflexivity].
Defined.
